(** * persistent-signals: atoms, debounced persistence and cross-tab merge

    A shallow embedding of [src/utils/debounce.ts], [src/core/atom.ts] and
    [src/core/storage.ts] (the cross-tab handler), and the properties of the
    entry life cycle, the write path and the merge protocol.

    JavaScript code is embedded as state-passing functions that may throw:
    [Eff S A] is a computation over a state [S] that either returns an [A]
    or throws, and keeps the side effects made before the throw. *)

From Stdlib Require Import ZArith Lia Bool.
From stdpp Require Import base option list strings gmap.

Local Open Scope string_scope.
Local Open Scope Z_scope.

(** ** Completions and the effect monad *)

Inductive JsError : Type :=
| TypeError
| SyntaxError
| Error (message : string)
| HostError (name : string).

Inductive Completion (A : Type) : Type :=
| Normal (a : A)
| Throw (e : JsError).
Arguments Normal {A} a.
Arguments Throw {A} e.

Definition Eff (S A : Type) : Type := S -> Completion A * S.

Definition ret {S A} (a : A) : Eff S A := fun s => (Normal a, s).

Definition bind {S A B} (m : Eff S A) (k : A -> Eff S B) : Eff S B :=
  fun s =>
    match m s with
    | (Normal a, s') => k a s'
    | (Throw e, s') => (Throw e, s')
    end.

Definition throw {S A} (e : JsError) : Eff S A := fun s => (Throw e, s).

(** [try { body } catch (e) { handler e }] *)
Definition try_catch {S A} (body : Eff S A) (handler : JsError -> Eff S A) : Eff S A :=
  fun s =>
    match body s with
    | (Normal a, s') => (Normal a, s')
    | (Throw e, s') => handler e s'
    end.

Definition gets {S A} (f : S -> A) : Eff S A := fun s => (Normal (f s), s).
Definition modify {S} (f : S -> S) : Eff S unit := fun s => (Normal tt, f s).

(** Run a computation on the second component of a pair of states. *)
Definition on_snd {S1 S2 A} (m : Eff S2 A) : Eff (S1 * S2) A :=
  fun s =>
    match m (snd s) with
    | (c, s2) => (c, (fst s, s2))
    end.

Declare Scope eff_scope.
Delimit Scope eff_scope with eff.
Notation "'let!' x := m 'in' k" := (bind m (fun x => k))
  (at level 10, x name, m at level 200, k at level 200, only parsing) : eff_scope.
Notation "m ;; k" := (bind m (fun _ => k))
  (at level 100, k at level 200, right associativity, only parsing) : eff_scope.
Local Open Scope eff_scope.

(** ** JavaScript values

    The values an atom can hold and that [JSON.parse] can produce.  Numbers
    are the integers ([Z]) among the doubles; [VBigInt] stands for the
    values [JSON.stringify] refuses. Objects are association lists with
    distinct keys. *)

#[local] Set Warnings "-register-all".

Inductive jsval : Type :=
| VUndefined
| VNull
| VBool (b : bool)
| VNum (n : Z)
| VStr (s : string)
| VBigInt (n : Z)
| VArr (items : list jsval)
| VObj (fields : list (string * jsval)).

Fixpoint assoc (k : string) (fields : list (string * jsval)) : jsval :=
  match fields with
  | [] => VUndefined
  | (k', v) :: rest => if String.eqb k k' then v else assoc k rest
  end.

(** [o.name] for the property names read in this code base ([value],
    [version], [originId]): reading a property of [null] or [undefined]
    throws a TypeError, primitives and arrays have no such property. *)
Definition get_prop {S} (o : jsval) (name : string) : Eff S jsval :=
  match o with
  | VUndefined | VNull => throw TypeError
  | VObj fields => ret (assoc name fields)
  | _ => ret VUndefined
  end.

(** [a === b]; objects and arrays are compared by reference and two values
    built separately (a parsed remote state against the current value) are
    never the same reference. *)
Definition strict_equal (a b : jsval) : bool :=
  match a, b with
  | VUndefined, VUndefined => true
  | VNull, VNull => true
  | VBool x, VBool y => Bool.eqb x y
  | VNum x, VNum y => Z.eqb x y
  | VStr x, VStr y => String.eqb x y
  | VBigInt x, VBigInt y => Z.eqb x y
  | _, _ => false
  end.

(** Truthiness of a string ([!s] is true for the empty string). *)
Definition truthy_string (s : string) : bool := negb (String.eqb s "").

Definition truthy_opt_string (s : option string) : bool :=
  match s with
  | Some s => truthy_string s
  | None => false
  end.

(** ** Numbers

    A number of the program is a double.  The counters of this code base
    hold integers, and an integer is a value of the program when a double
    holds it: every integer up to [2^53] in size, and from there on the
    multiples of the spacing [2 ^ (log2 a - 52)] of the doubles at that
    size. *)

Definition spacing (a : Z) : Z := 2 ^ Z.max 0 (Z.log2 a - 52).

(** The double nearest to the integer [a >= 0] (round to nearest, ties to
    the even significand), as the arithmetic of the host rounds. *)
Definition nearest_double_nonneg (a : Z) : Z :=
  let u := spacing a in
  let q := a / u in
  let r := a mod u in
  if 2 * r <? u then q * u
  else if u <? 2 * r then (q + 1) * u
  else if Z.even q then q * u else (q + 1) * u.

Definition nearest_double (z : Z) : Z := Z.sgn z * nearest_double_nonneg (Z.abs z).

Definition is_double (z : Z) : bool :=
  (nearest_double z =? z) && (Z.abs z <? 2 ^ 1024).

(** [n++] on a counter: the double nearest to [n + 1].  Below [2^53] that
    is [n + 1]; at [2^53] it is [2^53] again.  (An integer that no double
    holds is not a value of the program; the sum is left exact there.) *)
Definition increment (n : Z) : Z :=
  if is_double n then nearest_double (n + 1) else n + 1.

Arguments increment : simpl never.

(** ** The debounce utility ([src/utils/debounce.ts])

    The host's timer facility, as seen from a debounced function: the
    clock, [setTimeout] (which returns the new timer's identifier) and
    [clearTimeout]. *)

Class TimerHost (W : Type) : Type := {
  Date_now : W -> Z;
  setTimeout : Z -> W -> nat * W;
  clearTimeout : nat -> W -> W;
}.

(** [DebounceOptions]; a field is [None] when the key is absent.  For
    [maxWait], [Some None] is a key that is present and holds [undefined]. *)
Record DebounceOptions : Type := {
  opt_leading : option bool;
  opt_trailing : option bool;
  opt_maxWait : option (option Z);
}.

(** The variables captured by one debounced function. *)
Record DebounceState (A Th R : Type) : Type := {
  lastArgs : option A;
  lastThis : option Th;
  result : option R;
  timerId : option nat;
  lastCallTime : option Z;
  lastInvokeTime : Z;
}.
Arguments lastArgs {A Th R} _.
Arguments lastThis {A Th R} _.
Arguments result {A Th R} _.
Arguments timerId {A Th R} _.
Arguments lastCallTime {A Th R} _.
Arguments lastInvokeTime {A Th R} _.

Section Debounce.
Context {W A Th R : Type} `{TimerHost W}.

(** [func.apply(thisArg, args)]; [args] is [None] when [lastArgs] is
    [undefined] at the call. *)
Variable func : option Th -> option A -> Eff W R.
Variable wait : Z.
Variable options : DebounceOptions.

Abbreviation DS := (DebounceState A Th R * W)%type.

Definition leading : bool := default false (opt_leading options).
Definition trailing : bool := default true (opt_trailing options).
Definition maxing : bool :=
  match opt_maxWait options with Some _ => true | None => false end.
Definition maxWait : option Z :=
  match opt_maxWait options with
  | Some m => Some (Z.max (default 0 m) wait)
  | None => None
  end.

Definition set_lastArgs (x : option A) (d : DebounceState A Th R) :=
  {| lastArgs := x; lastThis := lastThis d; result := result d;
     timerId := timerId d; lastCallTime := lastCallTime d;
     lastInvokeTime := lastInvokeTime d |}.
Definition set_lastThis (x : option Th) (d : DebounceState A Th R) :=
  {| lastArgs := lastArgs d; lastThis := x; result := result d;
     timerId := timerId d; lastCallTime := lastCallTime d;
     lastInvokeTime := lastInvokeTime d |}.
Definition set_result (x : option R) (d : DebounceState A Th R) :=
  {| lastArgs := lastArgs d; lastThis := lastThis d; result := x;
     timerId := timerId d; lastCallTime := lastCallTime d;
     lastInvokeTime := lastInvokeTime d |}.
Definition set_timerId (x : option nat) (d : DebounceState A Th R) :=
  {| lastArgs := lastArgs d; lastThis := lastThis d; result := result d;
     timerId := x; lastCallTime := lastCallTime d;
     lastInvokeTime := lastInvokeTime d |}.
Definition set_lastCallTime (x : option Z) (d : DebounceState A Th R) :=
  {| lastArgs := lastArgs d; lastThis := lastThis d; result := result d;
     timerId := timerId d; lastCallTime := x;
     lastInvokeTime := lastInvokeTime d |}.
Definition set_lastInvokeTime (x : Z) (d : DebounceState A Th R) :=
  {| lastArgs := lastArgs d; lastThis := lastThis d; result := result d;
     timerId := timerId d; lastCallTime := lastCallTime d;
     lastInvokeTime := x |}.

(** Read and update the captured variables. *)
Definition var {X} (f : DebounceState A Th R -> X) : Eff DS X :=
  gets (fun s => f (fst s)).
Definition assign (f : DebounceState A Th R -> DebounceState A Th R) : Eff DS unit :=
  modify (fun s => (f (fst s), snd s)).

Definition invokeFunc (time : Z) : Eff DS R :=
  let! args := var lastArgs in
  let! thisArg := var lastThis in
  assign (set_lastArgs None) ;;
  assign (set_lastThis None) ;;
  assign (set_lastInvokeTime time) ;;
  let! r := on_snd (func thisArg args) in
  assign (set_result (Some r)) ;;
  ret r.

(** [startTimer(timerExpired, waitTime)]: every caller passes
    [timerExpired] as the pending function. *)
Definition startTimer (waitTime : Z) : Eff DS unit :=
  let! t := var timerId in
  match t with
  | Some id => on_snd (modify (clearTimeout id))
  | None => ret tt
  end ;;
  fun s =>
    let (id, w) := setTimeout waitTime (snd s) in
    (Normal tt, (set_timerId (Some id) (fst s), w)).

Definition remainingWait (d : DebounceState A Th R) (time : Z) : Z :=
  let timeSinceLastCall := time - default 0 (lastCallTime d) in
  let timeSinceLastInvoke := time - lastInvokeTime d in
  let timeWaiting := wait - timeSinceLastCall in
  match maxing, maxWait with
  | true, Some mw => Z.min timeWaiting (mw - timeSinceLastInvoke)
  | _, _ => timeWaiting
  end.

Definition shouldInvoke (d : DebounceState A Th R) (time : Z) : bool :=
  let timeSinceLastCall := time - default 0 (lastCallTime d) in
  let timeSinceLastInvoke := time - lastInvokeTime d in
  match lastCallTime d with None => true | Some _ => false end
  || (wait <=? timeSinceLastCall)
  || (timeSinceLastCall <? 0)
  || (maxing &&
      match maxWait with
      | Some mw => mw <=? timeSinceLastInvoke
      | None => false
      end).

Definition trailingEdge (time : Z) : Eff DS (option R) :=
  assign (set_timerId None) ;;
  let! args := var lastArgs in
  if trailing && bool_decide (is_Some args) then
    let! r := invokeFunc time in ret (Some r)
  else
    assign (set_lastArgs None) ;;
    assign (set_lastThis None) ;;
    var result.

Definition timerExpired : Eff DS unit :=
  let! time := on_snd (gets Date_now) in
  let! d := var id in
  if shouldInvoke d time then
    trailingEdge time ;; ret tt
  else
    startTimer (remainingWait d time).

Definition leadingEdge (time : Z) : Eff DS (option R) :=
  assign (set_lastInvokeTime time) ;;
  startTimer wait ;;
  if leading then let! r := invokeFunc time in ret (Some r) else var result.

Definition cancel : Eff DS unit :=
  let! t := var timerId in
  match t with
  | Some id => on_snd (modify (clearTimeout id))
  | None => ret tt
  end ;;
  assign (set_lastInvokeTime 0) ;;
  assign (set_timerId None) ;;
  assign (set_lastThis None) ;;
  assign (set_lastCallTime None) ;;
  assign (set_lastArgs None).

Definition flush : Eff DS (option R) :=
  let! t := var timerId in
  match t with
  | None => var result
  | Some _ => let! time := on_snd (gets Date_now) in trailingEdge time
  end.

Definition debounced (this : option Th) (args : A) : Eff DS (option R) :=
  let! time := on_snd (gets Date_now) in
  let! d := var id in
  let isInvoking := shouldInvoke d time in
  assign (set_lastArgs (Some args)) ;;
  assign (set_lastThis this) ;;
  assign (set_lastCallTime (Some time)) ;;
  let! t := var timerId in
  (* the two returns inside [if (isInvoking)], then the code after it *)
  match isInvoking, t, maxing with
  | true, None, _ => leadingEdge time
  | true, Some _, true =>
      startTimer wait ;;
      let! r := invokeFunc time in ret (Some r)
  | _, _, _ =>
      let! t' := var timerId in
      match t' with
      | None => startTimer wait
      | Some _ => ret tt
      end ;;
      var result
  end.

End Debounce.

(** [debounce(func, wait, options)]: the variables of a new debounced
    function. *)
Definition debounce {A Th R : Type} : DebounceState A Th R :=
  {| lastArgs := None; lastThis := None; result := None; timerId := None;
     lastCallTime := None; lastInvokeTime := 0 |}.

(** The defaults of [debounce]'s parameters: [wait = 0], [options = {}]. *)
Definition default_wait (wait : option Z) : Z := default 0 wait.
Definition default_options (options : option DebounceOptions) : DebounceOptions :=
  default {| opt_leading := None; opt_trailing := None; opt_maxWait := None |} options.

(** ** The host platform

    What the JavaScript host provides and the repository only calls. *)

Inductive LogLevel : Type := LogError | LogWarn | LogDebug | LogInfo.

Class Platform : Type := {
  (** backing state of the storage media the adapters write to *)
  Store : Type;
  (** [JSON.parse]: [None] when it throws a SyntaxError *)
  JSON_parse : string -> option jsval;
  (** [JSON.stringify]: [None] when it throws, [Some None] when it
      returns [undefined] *)
  JSON_stringify : jsval -> option (option string);
  (** [a.localeCompare(b)] *)
  localeCompare : string -> string -> Z;
  (** [process.env.NODE_ENV] *)
  NODE_ENV : string;
  (** the tab id [generateTabId()] produced for this page *)
  localTabId : string;
  (** the host's [localStorage]; [None] when the call throws *)
  localStorage_getItem : string -> Store -> option (option string);
  localStorage_setItem : string -> string -> Store -> option Store;
  localStorage_removeItem : string -> Store -> option Store;
}.

Section WithPlatform.
Context `{Platform}.

(** The host state: the clock read by [Date.now()], the timers armed with
    [setTimeout] (identifier and delay), the console and the stores. *)
Record World : Type := {
  clock : Z;
  timers : list (nat * Z);
  nextTimer : nat;
  console : list (LogLevel * string);
  store : Store;
}.

Definition set_clock (t : Z) (w : World) : World :=
  {| clock := t; timers := timers w; nextTimer := nextTimer w;
     console := console w; store := store w |}.

Definition set_store (s : Store) (w : World) : World :=
  {| clock := clock w; timers := timers w; nextTimer := nextTimer w;
     console := console w; store := s |}.

Definition console_log (l : LogLevel) (msg : string) : Eff World unit :=
  modify (fun w =>
    {| clock := clock w; timers := timers w; nextTimer := nextTimer w;
       console := console w ++ [(l, msg)]; store := store w |}).

Definition world_setTimeout (delay : Z) (w : World) : nat * World :=
  (nextTimer w,
   {| clock := clock w; timers := timers w ++ [(nextTimer w, delay)];
      nextTimer := S (nextTimer w); console := console w; store := store w |}).

Definition world_clearTimeout (id : nat) (w : World) : World :=
  {| clock := clock w;
     timers := List.filter (fun t => negb (Nat.eqb (fst t) id)) (timers w);
     nextTimer := nextTimer w; console := console w; store := store w |}.


#[export] Instance World_TimerHost : TimerHost World := {
  Date_now := clock;
  setTimeout := world_setTimeout;
  clearTimeout := world_clearTimeout;
}.

(** ** The storage adapter contract ([StorageAdapter])

    [adapter_id] is the identity of the adapter object, the key under
    which [storageRegistryMap] files its registry. The optional [watch]
    only wires the handler below to the host's storage event. *)

Record StorageAdapter : Type := {
  adapter_id : nat;
  getItem : string -> Eff World (option string);
  setItem : string -> string -> Eff World unit;
  removeItem : string -> Eff World unit;
}.

Definition host_call {A} (r : option A) (name : string) : Eff World A :=
  match r with
  | Some a => ret a
  | None => throw (HostError name)
  end.

Definition localStorageAdapter : StorageAdapter := {|
  adapter_id := 0%nat;
  getItem := fun key =>
    console_log LogInfo ("GeT: " +:+ key) ;;
    let! st := gets store in
    host_call (localStorage_getItem key st) "localStorage.getItem";
  setItem := fun key value =>
    console_log LogInfo ("SeT: " +:+ key +:+ " " +:+ value) ;;
    let! st := gets store in
    let! st' := host_call (localStorage_setItem key value st) "localStorage.setItem" in
    modify (set_store st');
  removeItem := fun key =>
    console_log LogInfo ("RE: " +:+ key) ;;
    let! st := gets store in
    let! st' := host_call (localStorage_removeItem key st) "localStorage.removeItem" in
    modify (set_store st');
|}.

(** ** Atoms ([src/core/atom.ts]) *)

Record AtomConfig : Type := {
  key : string;
  defaultValue : jsval;
}.

Record AtomState : Type := {
  value : jsval;
  version : Z;
  originId : string;
}.

(** [AtomRegistryEntryOptions]: an absent [overrideValue] is [VUndefined],
    an absent [originId] or [persistent] is [None]. *)
Record AtomRegistryEntryOptions : Type := {
  overrideValue : jsval;
  init_originId : option string;
  persistent : option bool;
}.

(** The private fields of an [AtomRegistryEntry].  [e_signal] is the value
    held by [#signal] (the constructor always creates the signal and nothing
    resets it, so the getter's guard never fires).  [e_debouncedWrite] holds
    the variables of the debounced writer while there is one;
    [e_disposeEffect] tells whether the entry holds the disposer of a live
    persistence effect. *)
Record Entry : Type := {
  e_config : AtomConfig;
  e_signal : jsval;
  e_refCount : Z;
  e_version : Z;
  e_originId : option string;
  e_debouncedWrite : option (DebounceState unit unit unit);
  e_disposeEffect : bool;
  e_storage : StorageAdapter;
}.

Definition set_e_signal (x : jsval) (e : Entry) : Entry :=
  {| e_config := e_config e; e_signal := x; e_refCount := e_refCount e;
     e_version := e_version e; e_originId := e_originId e;
     e_debouncedWrite := e_debouncedWrite e;
     e_disposeEffect := e_disposeEffect e; e_storage := e_storage e |}.
Definition set_e_refCount (x : Z) (e : Entry) : Entry :=
  {| e_config := e_config e; e_signal := e_signal e; e_refCount := x;
     e_version := e_version e; e_originId := e_originId e;
     e_debouncedWrite := e_debouncedWrite e;
     e_disposeEffect := e_disposeEffect e; e_storage := e_storage e |}.
Definition set_e_version (x : Z) (e : Entry) : Entry :=
  {| e_config := e_config e; e_signal := e_signal e; e_refCount := e_refCount e;
     e_version := x; e_originId := e_originId e;
     e_debouncedWrite := e_debouncedWrite e;
     e_disposeEffect := e_disposeEffect e; e_storage := e_storage e |}.
Definition set_e_debouncedWrite (x : option (DebounceState unit unit unit))
    (e : Entry) : Entry :=
  {| e_config := e_config e; e_signal := e_signal e; e_refCount := e_refCount e;
     e_version := e_version e; e_originId := e_originId e;
     e_debouncedWrite := x;
     e_disposeEffect := e_disposeEffect e; e_storage := e_storage e |}.
Definition set_e_disposeEffect (x : bool) (e : Entry) : Entry :=
  {| e_config := e_config e; e_signal := e_signal e; e_refCount := e_refCount e;
     e_version := e_version e; e_originId := e_originId e;
     e_debouncedWrite := e_debouncedWrite e;
     e_disposeEffect := x; e_storage := e_storage e |}.

(** The state an entry's methods run on: the entry ([this]) and the host. *)
Abbreviation ES := (Entry * World)%type.

Definition this {X} (f : Entry -> X) : Eff ES X := gets (fun s => f (fst s)).
Definition update (f : Entry -> Entry) : Eff ES unit :=
  modify (fun s => (f (fst s), snd s)).

#[export] Instance ES_TimerHost : TimerHost ES := {
  Date_now := fun s => clock (snd s);
  setTimeout := fun delay s =>
    let (id, w) := world_setTimeout delay (snd s) in (id, (fst s, w));
  clearTimeout := fun id s => (fst s, world_clearTimeout id (snd s));
}.

Definition jsval_of_originId (o : option string) : jsval :=
  match o with
  | Some s => VStr s
  | None => VUndefined
  end.

(** [JSON.stringify] of an object literal: a string, or a throw.  (The
    host's function never returns [undefined] for an object; that case is
    rendered as the text the storage would make of it.) *)
Definition stringify_object {S} (o : jsval) : Eff S string :=
  match JSON_stringify o with
  | Some (Some s) => ret s
  | Some None => ret "undefined"
  | None => throw TypeError
  end.

Definition persisted_record (e : Entry) : jsval :=
  VObj [("value", e_signal e); ("version", VNum (e_version e));
        ("originId", jsval_of_originId (e_originId e))].

(** The closure [writeToStorage] of [setupPersistence]. *)
Definition writeToStorage : Eff ES unit :=
  try_catch
    (update (fun e => set_e_version (increment (e_version e)) e) ;;
     let! e := this id in
     let! text := stringify_object (persisted_record e) in
     on_snd (setItem (e_storage e) (key (e_config e)) text))
    (fun error =>
       let! k := this (fun e => key (e_config e)) in
       on_snd (console_log LogError
                 ("[persistent-signals] Error writing key " +:+ k))).

(** The debounced writer of [setupPersistence]:
    [debounce(writeToStorage, 100, { trailing: true })]. *)
Definition write_wait : Z := 100.
Definition write_options : DebounceOptions :=
  {| opt_leading := None; opt_trailing := Some true; opt_maxWait := None |}.
Definition write_func (_ : option unit) (_ : option unit) : Eff ES unit :=
  writeToStorage.

(** [this.#debouncedWrite?.m()]: run the method [m] of the debounced writer
    on its captured variables, if there is a writer. *)
Definition with_debouncedWrite {X}
    (m : Eff (DebounceState unit unit unit * ES) X) : Eff ES (option X) :=
  fun s =>
    match e_debouncedWrite (fst s) with
    | None => (Normal None, s)
    | Some d =>
        match m (d, s) with
        | (Normal x, (d', (e', w'))) =>
            (Normal (Some x), (set_e_debouncedWrite (Some d') e', w'))
        | (Throw err, (d', (e', w'))) =>
            (Throw err, (set_e_debouncedWrite (Some d') e', w'))
        end
    end.

(** The body of the persistence effect:
    [void this.signal.value; this.#debouncedWrite?.()]. *)
Definition persistence_effect : Eff ES unit :=
  with_debouncedWrite (debounced write_func write_wait write_options (Some tt) tt) ;;
  ret tt.

(** [this.signal.value = v]: a signal notifies its subscribers only when
    the new value is not ([!==]) the one it holds; the subscriber here is
    the persistence effect, which then runs at once. *)
Definition signal_set (v : jsval) : Eff ES unit :=
  let! cur := this e_signal in
  if strict_equal v cur then ret tt
  else
    update (set_e_signal v) ;;
    let! subscribed := this e_disposeEffect in
    if subscribed then persistence_effect else ret tt.

(** [effect(fn)] runs [fn] once when it is created and hands back the
    disposer. *)
Definition setupPersistence : Eff ES unit :=
  update (set_e_debouncedWrite (Some debounce)) ;;
  persistence_effect ;;
  update (set_e_disposeEffect true).

Definition cleanupPersistence : Eff ES unit :=
  with_debouncedWrite (flush write_func write_options) ;;
  update (set_e_disposeEffect false) ;;
  update (set_e_debouncedWrite None).

(** [mount] and [unmount].  The count starts at 0 and moves by one per
    call, so it stays among the integers on which [++] and [--] are exact
    (it takes [2^53] calls to leave them). *)
Definition mount : Eff ES unit :=
  update (fun e => set_e_refCount (e_refCount e + 1) e) ;;
  let! n := this e_refCount in
  if n =? 1 then setupPersistence else ret tt.

Definition unmount : Eff ES unit :=
  update (fun e => set_e_refCount (e_refCount e - 1) e) ;;
  let! n := this e_refCount in
  if n =? 0 then cleanupPersistence else ret tt.

(** The public [flush()] of an entry. *)
Definition entry_flush : Eff ES unit :=
  with_debouncedWrite (flush write_func write_options) ;;
  ret tt.

(** [[Symbol.dispose]()] *)
Definition dispose : Eff ES unit := cleanupPersistence.

(** The host fires the timer [id] that the entry's debounced writer armed:
    the timer leaves the host's list and the callback [timerExpired] runs.
    (A writer that [cleanupPersistence] discarded has no pending call left;
    the timers it leaves behind are not followed.) *)
Definition timer_fires (id : nat) : Eff ES unit :=
  on_snd (modify (world_clearTimeout id)) ;;
  with_debouncedWrite (timerExpired write_func write_wait write_options) ;;
  ret tt.

(** The conflict rule of [syncWith]: whether the remote state is applied,
    and the action that is logged. *)
Definition resolve (localVersion : Z) (localOrigin : option string)
    (remoteState : AtomState) : bool * string :=
  let remoteVersion := version remoteState in
  if localVersion <? remoteVersion then
    (true, "accepted (newer version)")
  else if remoteVersion =? localVersion then
    if truthy_opt_string localOrigin &&
       (0 <? localeCompare (originId remoteState) (default "" localOrigin))
    then (true, "accepted (conflict resolved by originId)")
    else (false, "ignored")
  else (false, "ignored (older version)").

Definition syncWith (remoteState : AtomState) : Eff ES unit :=
  let! localVersion := this e_version in
  let! localOrigin := this e_originId in
  let (shouldUpdate, actionTaken) := resolve localVersion localOrigin remoteState in
  (if shouldUpdate then
     signal_set (value remoteState) ;;
     update (set_e_version (version remoteState))
   else ret tt) ;;
  if String.eqb NODE_ENV "development" && String.prefix "accepted" actionTaken then
    let! k := this (fun e => key (e_config e)) in
    on_snd (console_log LogDebug ("[Sync] Key: " +:+ k +:+ " Action: " +:+ actionTaken))
  else ret tt.

(** [parsed.version || 0] of the constructor.  The field is declared a
    number; [undefined], [null], [0] and the other falsy values give 0.
    An entry's version is a number in this model: a truthy value of another
    type, which the code would keep as it is, has no counterpart and is
    read as 0; the properties of the constructor are stated for numbers
    and falsy values only. *)
Definition version_or_zero (v : jsval) : Z :=
  match v with
  | VNum n => n
  | _ => 0
  end.

Definition is_true (b : option bool) : bool := default false b.

(** The entry the constructor leaves, given the initial value and version
    it settled on. *)
Definition constructed (config : AtomConfig) (storage : StorageAdapter)
    (options : AtomRegistryEntryOptions) (initialValue : jsval) (v : Z) : Entry :=
  {| e_config := config; e_signal := initialValue; e_refCount := 0;
     e_version := v; e_originId := init_originId options;
     e_debouncedWrite := None; e_disposeEffect := false;
     e_storage := storage |}.

(** [new AtomRegistryEntry(config, storage, options)] *)
Definition new_AtomRegistryEntry (config : AtomConfig) (storage : StorageAdapter)
    (options : AtomRegistryEntryOptions) : Eff World Entry :=
  let entry := constructed config storage options in
  if negb (strict_equal (overrideValue options) VUndefined) then
    ret (entry (overrideValue options) 0)
  else if is_true (persistent options) then
    try_catch
      (let! stored := getItem storage (key config) in
       match stored with
       | Some text =>
           let! parsed := host_call (JSON_parse text) "JSON.parse" in
           let! v := get_prop parsed "value" in
           let! ver := get_prop parsed "version" in
           ret (entry v (version_or_zero ver))
       | None => ret (entry (defaultValue config) 0)
       end)
      (fun e =>
         console_log LogError
           ("[persistent-signals] Error reading key " +:+ key config) ;;
         ret (entry (defaultValue config) 0))
  else ret (entry (defaultValue config) 0).

(** ** The registry manager

    [storageRegistryMap]: adapter identity to the registry of that
    adapter, a map from atom keys to entries.  The functions below run on
    the registries and the host. *)
Abbreviation Registries := (gmap nat (gmap string Entry)).
Abbreviation App := (Registries * World)%type.

Definition getRegistryForStorage (storage : StorageAdapter) : Eff App unit :=
  modify (fun s : App =>
    match fst s !! adapter_id storage with
    | Some _ => s
    | None => (<[adapter_id storage := ∅]> (fst s), snd s)
    end).

Definition getRegistryFrom (storage : StorageAdapter) (regs : Registries)
    : option (gmap string Entry) :=
  regs !! adapter_id storage.

Definition getAtomEntryFrom (storage : StorageAdapter) (k : string)
    (regs : Registries) : option Entry :=
  match regs !! adapter_id storage with
  | Some registry => registry !! k
  | None => None
  end.

Definition registry_set (storage : StorageAdapter) (k : string) (e : Entry)
    (regs : Registries) : Registries :=
  <[adapter_id storage := <[k := e]> (default ∅ (regs !! adapter_id storage))]> regs.

(** [JSON.stringify] of any value: the text, or [undefined], or a throw. *)
Definition stringify {S} (v : jsval) : Eff S (option string) :=
  match JSON_stringify v with
  | Some r => ret r
  | None => throw TypeError
  end.

Definition option_string_eqb (a b : option string) : bool :=
  match a, b with
  | Some x, Some y => String.eqb x y
  | None, None => true
  | _, _ => false
  end.

Definition acquireEntry (atomConfig : AtomConfig) (storage : StorageAdapter)
    (initOptions : AtomRegistryEntryOptions) : Eff App Entry :=
  if negb (truthy_string (key atomConfig)) then
    throw (Error "[persistent-signals] Atom key must be a non-empty string.")
  else
    getRegistryForStorage storage ;;
    let! existingEntry := gets (fun s : App => getAtomEntryFrom storage (key atomConfig) (fst s)) in
    match existingEntry with
    | Some existing =>
        (if negb (String.eqb NODE_ENV "production") then
           let! oldDefault := stringify (defaultValue (e_config existing)) in
           let! newDefault := stringify (defaultValue atomConfig) in
           if negb (option_string_eqb oldDefault newDefault) then
             on_snd (console_log LogWarn
               ("[persistent-signals] Atom with key " +:+ key atomConfig +:+
                " was already registered with a different defaultValue."))
           else ret tt
         else ret tt) ;;
        ret existing
    | None =>
        let! newEntry := on_snd (new_AtomRegistryEntry atomConfig storage initOptions) in
        modify (fun s : App => (registry_set storage (key atomConfig) newEntry (fst s), snd s)) ;;
        ret newEntry
    end.

(** Run a method of the entry filed under [k] in [storage]'s registry,
    and store the entry's new state back (the registry holds the object). *)
Definition on_entry {X} (storage : StorageAdapter) (k : string) (e : Entry)
    (m : Eff ES X) : Eff App X :=
  fun s =>
    match m (e, snd s) with
    | (c, (e', w')) => (c, (registry_set storage k e' (fst s), w'))
    end.

(** ** The cross-tab handler ([src/core/storage.ts]) *)

Record StorageEvent : Type := {
  ev_key : option string;
  ev_newValue : option string;
}.

Definition is_number (v : jsval) : bool :=
  match v with VNum _ => true | _ => false end.
Definition is_string (v : jsval) : bool :=
  match v with VStr _ => true | _ => false end.

Definition invalid_structure (k : string) : Eff App unit :=
  if String.eqb NODE_ENV "development" then
    on_snd (console_log LogWarn
      ("[persistent-signals] Invalid remote state structure for key " +:+ k))
  else ret tt.

(** [handleStorageChange], with the method called in its last line as a
    parameter: [merge] stands for [entry.syncWith]. *)
Definition handleStorageChange_with (merge : AtomState -> Eff ES unit)
    (event : StorageEvent) : Eff App unit :=
  match ev_key event, ev_newValue event with
  | Some k, Some newValue =>
      if negb (truthy_string k) then ret tt
      else
        let! found := gets (fun s : App => getAtomEntryFrom localStorageAdapter k (fst s)) in
        match found with
        | None => ret tt
        | Some entry =>
            let! parsed :=
              try_catch
                (let! r := on_snd (host_call (JSON_parse newValue) "JSON.parse") in
                 ret (Some r))
                (fun e =>
                   on_snd (console_log LogError
                     ("[persistent-signals] Failed to parse storage event value for key "
                      +:+ k)) ;;
                   ret None) in
            match parsed with
            | None => ret tt
            | Some remoteState =>
                (* the three operands of the structure check read the same
                   object: the first read throws exactly when any would *)
                let! v := get_prop remoteState "value" in
                let! ver := get_prop remoteState "version" in
                let! o := get_prop remoteState "originId" in
                match v, ver, o with
                | VUndefined, _, _ => invalid_structure k
                | _, VNum n, VStr origin =>
                    if String.eqb origin localTabId then ret tt
                    else
                      on_entry localStorageAdapter k entry
                        (merge {| value := v; version := n; originId := origin |})
                | _, _, _ => invalid_structure k
                end
            end
        end
  | _, _ => ret tt
  end.

Definition handleStorageChange (event : StorageEvent) : Eff App unit :=
  handleStorageChange_with syncWith event.

End WithPlatform.

Abbreviation ES := (Entry * World)%type.
Abbreviation Registries := (gmap nat (gmap string Entry)).
Abbreviation App := (Registries * World)%type.

(** ** Vocabulary of the properties *)

Section DebounceReadings.
Context {A Th R : Type}.

(** "Should invoke now" read with the [maxWait] the caller configured:
    no call recorded, or at least [wait] since the last call, or a negative
    time since the last call, or at least the configured [maxWait] since
    the last invocation. *)
Definition should_invoke_as_configured (wait : Z) (options : DebounceOptions)
    (d : DebounceState A Th R) (time : Z) : Prop :=
  lastCallTime d = None
  \/ (exists c, lastCallTime d = Some c /\ wait <= time - c)
  \/ (exists c, lastCallTime d = Some c /\ time - c < 0)
  \/ (exists m, opt_maxWait options = Some (Some m) /\ m <= time - lastInvokeTime d).

(** A call is recorded and its timer is armed: the debounced function has
    a write to deliver. *)
Definition pending (d : DebounceState A Th R) : bool :=
  bool_decide (is_Some (timerId d)) && bool_decide (is_Some (lastArgs d)).

End DebounceReadings.

(** [p.name] for a [p] that is neither [null] nor [undefined]. *)
Definition prop_of (p : jsval) (name : string) : jsval :=
  match p with
  | VObj fields => assoc name fields
  | _ => VUndefined
  end.

(** A parsed state that the handler's structure check turns away. *)
Definition malformed (p : jsval) : Prop :=
  prop_of p "value" = VUndefined
  \/ is_number (prop_of p "version") = false
  \/ is_string (prop_of p "originId") = false.

Section Traces.
Context `{Platform}.

(** The entry after [n] more local writes. *)
Definition bump (n : Z) (e : Entry) : Entry :=
  set_e_version (Z.iter n increment (e_version e)) e.

Definition pending_write (e : Entry) : bool :=
  match e_debouncedWrite e with
  | Some d => pending d
  | None => false
  end.

(** Whether [syncWith] applies the remote state. *)
Definition accepts (e : Entry) (remoteState : AtomState) : bool :=
  fst (resolve (e_version e) (e_originId e) remoteState).

(** The entries a delivery of the debounced writer can leave: the same
    entry, or the entry after one write. *)
Inductive writes (e : Entry) : Entry -> Prop :=
| writes_none : writes e e
| writes_once : writes e (bump 1 e).

(** The reference count and the persistence wiring agree: a writer and a
    live effect while the count is positive, neither otherwise. *)
Definition wired (e : Entry) : Prop :=
  (0 < e_refCount e -> is_Some (e_debouncedWrite e) /\ e_disposeEffect e = true)
  /\ (e_refCount e <= 0 -> e_debouncedWrite e = None /\ e_disposeEffect e = false).

(** The variables of the writer after it delivered at [time]. *)
Definition delivered (d : DebounceState unit unit unit) (time : Z)
    : DebounceState unit unit unit :=
  {| lastArgs := None; lastThis := None; result := Some tt; timerId := None;
     lastCallTime := lastCallTime d; lastInvokeTime := time |}.

(** Two states of an entry with the same reference count and the same
    persistence wiring. *)
Definition same_wiring (e e' : Entry) : Prop :=
  e_refCount e' = e_refCount e
  /\ e_disposeEffect e' = e_disposeEffect e
  /\ (e_debouncedWrite e' = None <-> e_debouncedWrite e = None).

(** The entry [cleanupPersistence] leaves. *)
Definition torn_down (e : Entry) : Entry :=
  set_e_debouncedWrite None (set_e_disposeEffect false e).

(** What can happen to one entry: the calls of its consumers and of the
    host. *)
Inductive Event : Type :=
| Mount
| Unmount
| SetValue (v : jsval)
| Sync (remoteState : AtomState)
| Flush
| TimerFires (id : nat)
| ClockShows (t : Z).

Definition step (ev : Event) : Eff ES unit :=
  match ev with
  | Mount => mount
  | Unmount => unmount
  | SetValue v => signal_set v
  | Sync r => syncWith r
  | Flush => entry_flush
  | TimerFires id => timer_fires id
  | ClockShows t => on_snd (modify (set_clock t))
  end.

Fixpoint run_trace (trace : list Event) (s : ES) : ES :=
  match trace with
  | [] => s
  | ev :: rest => run_trace rest (snd (step ev s))
  end.

(** Mounts minus unmounts. *)
Fixpoint net (trace : list Event) : Z :=
  match trace with
  | [] => 0
  | Mount :: rest => 1 + net rest
  | Unmount :: rest => net rest - 1
  | _ :: rest => net rest
  end.

End Traces.

(** ** A concrete platform

    A host on which the definitions can be run: JSON texts without escapes
    or fractions, a [localStorage] of bounded record size, and the code-unit
    order as collation. *)

Module Sample.

Definition quote : string := String (Ascii.ascii_of_nat 34) EmptyString.

Definition digit (n : nat) : string :=
  String (Ascii.ascii_of_nat (48 + n)) EmptyString.

(** The decimal digits of [n >= 0]; its binary length is fuel enough. *)
Fixpoint nat_text (fuel : nat) (n : Z) : string :=
  match fuel with
  | O => digit 0
  | S fuel' =>
      if n <? 10 then digit (Z.to_nat n)
      else nat_text fuel' (n / 10) +:+ digit (Z.to_nat (n mod 10))
  end.

Definition num_text (z : Z) : string :=
  if z <? 0 then "-" +:+ nat_text (S (Z.to_nat (Z.log2 (- z)))) (- z)
  else nat_text (S (Z.to_nat (Z.log2 z))) z.

Fixpoint join (sep : string) (parts : list string) : string :=
  match parts with
  | [] => ""
  | [x] => x
  | x :: rest => x +:+ sep +:+ join sep rest
  end.

(** The text [JSON.stringify] gives: [None] is a throw (a BigInt inside),
    [Some None] is [undefined]. Inside an array [undefined] is written
    [null]; inside an object the property is left out. *)
Fixpoint text_of (v : jsval) : option (option string) :=
  match v with
  | VUndefined => Some None
  | VNull => Some (Some "null")
  | VBool b => Some (Some (if b then "true" else "false"))
  | VNum n => Some (Some (num_text n))
  | VStr s => Some (Some (quote +:+ s +:+ quote))
  | VBigInt _ => None
  | VArr items =>
      let fix go (l : list jsval) : option (list string) :=
        match l with
        | [] => Some []
        | x :: rest =>
            match text_of x, go rest with
            | Some t, Some ts => Some (default "null" t :: ts)
            | _, _ => None
            end
        end in
      match go items with
      | Some ts => Some (Some ("[" +:+ join "," ts +:+ "]"))
      | None => None
      end
  | VObj fields =>
      let fix go (l : list (string * jsval)) : option (list string) :=
        match l with
        | [] => Some []
        | (k, x) :: rest =>
            match text_of x, go rest with
            | Some (Some t), Some ts => Some ((quote +:+ k +:+ quote +:+ ":" +:+ t) :: ts)
            | Some None, Some ts => Some ts
            | _, _ => None
            end
        end in
      match go fields with
      | Some ts => Some (Some ("{" +:+ join "," ts +:+ "}"))
      | None => None
      end
  end.

Definition record (v : jsval) (n : Z) (origin : string) : jsval :=
  VObj [("value", v); ("version", VNum n); ("originId", VStr origin)].

(** The values whose texts [parse] recognises; any other text is taken
    for malformed. *)
Definition readable : list jsval :=
  [ VNull; VBool true; VNum 5; VStr "hello"; VArr [];
    VObj [("version", VNum 3); ("originId", VStr "tabA")];
    VObj [("value", VNum 7); ("version", VStr "3"); ("originId", VStr "tabA")];
    VObj [("value", VNum 7); ("version", VNum 3)];
    record (VNum 7) 3 "tabA";
    record (VNum 7) 9 "tab-local";
    record (VNum 5) 3 "tabA";
    record (VNum 7) 5 "zzz" ].

Definition parse (text : string) : option jsval :=
  List.find
    (fun v => match text_of v with
              | Some (Some t) => String.eqb t text
              | _ => false
              end)
    readable.

Definition code_unit_compare (a b : string) : Z :=
  match String.compare a b with
  | Lt => -1
  | Eq => 0
  | Gt => 1
  end.

(** A [localStorage] that refuses records longer than 64 characters. *)
Definition storage_setItem (k v : string) (st : gmap string string)
    : option (gmap string string) :=
  if (String.length v <=? 64)%nat then Some (<[k := v]> st) else None.

#[export] Instance platform : Platform := {
  Store := gmap string string;
  JSON_parse := parse;
  JSON_stringify := text_of;
  localeCompare := code_unit_compare;
  NODE_ENV := "development";
  localTabId := "tab-local";
  localStorage_getItem := fun k st => Some (st !! k);
  localStorage_setItem := storage_setItem;
  localStorage_removeItem := fun k st => Some (delete k st);
}.


(** Sample hosts and entries. *)
Definition world0 : World :=
  {| clock := 0; timers := []; nextTimer := 0%nat; console := [];
     store := (∅ : gmap string string) |}.

Definition counter : AtomConfig := {| key := "counter"; defaultValue := VNum 0 |}.

Definition entry_of (config : AtomConfig) (v : jsval) (n : Z)
    (origin : option string) : Entry :=
  constructed config localStorageAdapter
    {| overrideValue := VUndefined; init_originId := origin; persistent := Some true |}
    v n.

(** The counter of tab [tab-local], mounted at time 0, after its first
    write at time 100: nothing is pending. *)
Definition mounted_idle : ES :=
  run_trace [Mount; ClockShows 100; TimerFires 0; ClockShows 500]
            (entry_of counter (VNum 0) 0 (Some "tab-local"), world0).

Definition remote (v : jsval) (n : Z) (origin : string) : AtomState :=
  {| value := v; version := n; originId := origin |}.

(** A debounced function that counts its invocations in the host's
    console. *)
Definition tick (_ : option unit) (_ : option unit) : Eff World unit :=
  console_log LogInfo "tick".

Definition hurried : DebounceOptions :=
  {| opt_leading := Some true; opt_trailing := None; opt_maxWait := Some (Some 50) |}.

(** [debounce(tick, 100, { leading: true, maxWait: 50 })], called once at
    time 1000. *)
Definition called_at_1000 : DebounceState unit unit unit * World :=
  snd (debounced tick 100 hurried None tt (debounce, set_clock 1000 world0)).

(** An atom whose value cannot be written as JSON. *)
Definition big : AtomConfig := {| key := "big"; defaultValue := VBigInt 1 |}.

Definition registered (e : Entry) : Registries :=
  {[ 0%nat := {[ key (e_config e) := e ]} ]}.

(** The JSON text of a value ([""] when it has none). *)
Definition text (v : jsval) : string :=
  match text_of v with
  | Some (Some t) => t
  | _ => ""
  end.

(** The writer of [mounted_idle]: called at 0, delivered at 100. *)
Definition idle_writer : DebounceState unit unit unit :=
  {| lastArgs := None; lastThis := None; result := Some tt; timerId := None;
     lastCallTime := Some 0; lastInvokeTime := 100 |}.

End Sample.

(** * Properties of the debounce utility *)

Section DebounceProperties.
Context {A Th R : Type}.

(** C8 (as amended): "should invoke now" holds exactly when no call is
    recorded, or the time since the last call is at least [wait] or is
    negative, or the [maxWait] key is present and the time since
    [lastInvokeTime] is at least [max(maxWait ?? 0, wait)]. *)
Theorem shouldInvoke_iff (wait : Z) (options : DebounceOptions)
    (d : DebounceState A Th R) (time : Z) :
  shouldInvoke wait options d time = true <->
    lastCallTime d = None
    \/ (exists c, lastCallTime d = Some c /\ wait <= time - c)
    \/ (exists c, lastCallTime d = Some c /\ time - c < 0)
    \/ (exists m, opt_maxWait options = Some m /\
                  Z.max (default 0 m) wait <= time - lastInvokeTime d).
Proof.
  unfold shouldInvoke, maxing, maxWait.
  destruct (lastCallTime d) as [c|] eqn:Hc; simpl.
  2: { split; auto. }
  destruct (opt_maxWait options) as [m|] eqn:Hm; simpl.
  - rewrite !orb_true_iff, !Z.leb_le, Z.ltb_lt. split.
    + intros [[Hw | Hn] | Hx].
      * right; left. exists c. split; [done | lia].
      * right; right; left. exists c. split; [done | lia].
      * right; right; right. exists m. split; [done | lia].
    + intros [Hnone | [(c' & Hc' & Hw) | [(c' & Hc' & Hn) | (m' & Hm' & Hx)]]].
      * discriminate.
      * injection Hc' as <-. left; left. lia.
      * injection Hc' as <-. left; right. lia.
      * injection Hm' as <-. right. lia.
  - rewrite orb_false_r, orb_true_iff, Z.leb_le, Z.ltb_lt. split.
    + intros [Hw | Hn].
      * right; left. exists c. split; [done | lia].
      * right; right; left. exists c. split; [done | lia].
    + intros [Hnone | [(c' & Hc' & Hw) | [(c' & Hc' & Hn) | (m' & Hm' & Hx)]]].
      * discriminate.
      * injection Hc' as <-. left. lia.
      * injection Hc' as <-. right. lia.
      * discriminate.
Qed.

End DebounceProperties.

(** * Properties of the numbers *)

Section NumberProperties.
Context `{Platform}.

Lemma spacing_pos a : 0 < spacing a.
Proof. unfold spacing. apply Z.pow_pos_nonneg; lia. Qed.

Lemma spacing_small a : a < 2 ^ 53 -> spacing a = 1.
Proof.
  intros Ha. unfold spacing.
  destruct (Z.le_gt_cases a 0) as [Hz | Hp].
  - rewrite Z.log2_nonpos by lia. reflexivity.
  - assert (Z.log2 a < 53) by (apply Z.log2_lt_pow2; lia).
    replace (Z.max 0 (Z.log2 a - 52)) with 0 by lia. reflexivity.
Qed.

Lemma spacing_divide a b : a <= b -> Z.divide (spacing a) (spacing b).
Proof.
  intros Hab. unfold spacing.
  pose proof (Z.log2_le_mono a b Hab) as Hl.
  exists (2 ^ (Z.max 0 (Z.log2 b - 52) - Z.max 0 (Z.log2 a - 52))).
  rewrite <- Z.pow_add_r by lia. f_equal. lia.
Qed.

Lemma nearest_double_nonneg_cases a :
  nearest_double_nonneg a = a / spacing a * spacing a
  \/ nearest_double_nonneg a = (a / spacing a + 1) * spacing a.
Proof.
  unfold nearest_double_nonneg. cbv zeta.
  destruct (2 * (a mod spacing a) <? spacing a); [left; reflexivity|].
  destruct (spacing a <? 2 * (a mod spacing a)); [right; reflexivity|].
  destruct (Z.even (a / spacing a)); auto.
Qed.

Lemma nearest_double_nonneg_small a : 0 <= a <= 2 ^ 53 -> nearest_double_nonneg a = a.
Proof.
  intros [H0 Ha]. destruct (Z.eq_dec a (2 ^ 53)) as [-> | Hne]; [reflexivity|].
  unfold nearest_double_nonneg. rewrite spacing_small by lia. cbv zeta.
  rewrite Z.mod_1_r, Z.div_1_r. simpl. lia.
Qed.

Lemma nearest_double_small z : - 2 ^ 53 <= z <= 2 ^ 53 -> nearest_double z = z.
Proof.
  intros Hz. unfold nearest_double. rewrite nearest_double_nonneg_small by lia.
  destruct z; simpl; lia.
Qed.

Lemma nearest_double_nonneg_fixed a :
  0 <= a -> nearest_double_nonneg a = a -> a mod spacing a = 0.
Proof.
  intros H0 Hfix. pose proof (spacing_pos a) as Hu.
  destruct (nearest_double_nonneg_cases a) as [Hc | Hc]; rewrite Hfix in Hc;
    rewrite Hc at 1; apply Z.mod_mul; lia.
Qed.

Lemma nearest_double_nonneg_le a b :
  0 <= b <= a -> nearest_double_nonneg a = a -> nearest_double_nonneg b <= a.
Proof.
  intros [H0 Hba] Hfix.
  destruct (Z.eq_dec b a) as [-> | Hne]; [lia|].
  pose proof (spacing_pos b) as Hu.
  assert (Hdiv : Z.divide (spacing b) a).
  { apply Z.divide_trans with (spacing a); [apply spacing_divide; lia|].
    apply Z.mod_divide; [pose proof (spacing_pos a); lia|].
    apply nearest_double_nonneg_fixed; lia. }
  destruct Hdiv as [m Hm].
  assert (Hq : b / spacing b < m) by (apply Z.div_lt_upper_bound; lia).
  destruct (nearest_double_nonneg_cases b) as [-> | ->]; nia.
Qed.

Lemma nearest_double_nonneg_ge a b :
  0 <= a <= b -> nearest_double_nonneg a = a -> a <= nearest_double_nonneg b.
Proof.
  intros [H0 Hab] Hfix.
  pose proof (spacing_pos b) as Hu.
  assert (Hfloor : a <= b / spacing b * spacing b).
  { destruct (Z.eq_dec (spacing a) (spacing b)) as [Heq | Hne].
    - pose proof (nearest_double_nonneg_fixed a H0 Hfix) as Hmod.
      apply Z.mod_divide in Hmod; [|lia]. destruct Hmod as [m Hm].
      rewrite Heq in Hm.
      assert (m <= b / spacing b) by (apply Z.div_le_lower_bound; lia). nia.
    - assert (Hlog : Z.log2 a <= Z.log2 b) by (apply Z.log2_le_mono; lia).
      assert (Hlt : Z.log2 a < Z.log2 b /\ 52 < Z.log2 b).
      { unfold spacing in Hne.
        destruct (Z.eq_dec (Z.max 0 (Z.log2 a - 52)) (Z.max 0 (Z.log2 b - 52))) as [E|E];
          [rewrite E in Hne; lia | lia]. }
      destruct Hlt as [Hlt Hbig].
      assert (Hbpos : 0 < b).
      { destruct (Z.le_gt_cases b 0); [|lia]. rewrite (Z.log2_nonpos b) in Hbig; lia. }
      destruct (Z.log2_spec b Hbpos) as [Hlo _].
      assert (Ha : a < 2 ^ Z.log2 b).
      { destruct (Z.le_gt_cases a 0) as [|Hapos].
        - pose proof (Z.pow_pos_nonneg 2 (Z.log2 b)). lia.
        - destruct (Z.log2_spec a Hapos) as [_ Hhi].
          apply Z.lt_le_trans with (2 ^ Z.succ (Z.log2 a)); [lia|].
          apply Z.pow_le_mono_r; lia. }
      assert (Hpow : 2 ^ Z.log2 b = 2 ^ 52 * spacing b).
      { unfold spacing. rewrite <- Z.pow_add_r by lia. f_equal. lia. }
      assert (2 ^ 52 <= b / spacing b) by (apply Z.div_le_lower_bound; lia).
      nia. }
  destruct (nearest_double_nonneg_cases b) as [-> | ->]; nia.
Qed.

Lemma increment_safe n : - 2 ^ 53 <= n < 2 ^ 53 -> increment n = n + 1.
Proof.
  intros Hn. unfold increment. destruct (is_double n); [|reflexivity].
  apply nearest_double_small. lia.
Qed.

Lemma increment_ge n : n <= increment n.
Proof.
  unfold increment, is_double.
  destruct (nearest_double n =? n) eqn:Hfix; cbn [andb]; [|lia].
  destruct (Z.abs n <? 2 ^ 1024); [|lia].
  apply Z.eqb_eq in Hfix. unfold nearest_double in *.
  destruct (Z.le_gt_cases 0 n) as [Hpos | Hneg].
  - assert (Hfix' : nearest_double_nonneg n = n).
    { destruct (Z.eq_dec n 0) as [-> | ?]; [reflexivity|].
      rewrite Z.sgn_pos, Z.abs_eq in Hfix by lia. lia. }
    rewrite Z.sgn_pos, Z.abs_eq by lia.
    pose proof (nearest_double_nonneg_ge n (n + 1)). lia.
  - rewrite Z.sgn_neg, Z.abs_neq in Hfix by lia.
    assert (Hfix' : nearest_double_nonneg (- n) = - n) by lia.
    destruct (Z.eq_dec (n + 1) 0) as [-> | ?]; [simpl; lia|].
    rewrite Z.sgn_neg, Z.abs_neq by lia.
    pose proof (nearest_double_nonneg_le (- n) (- (n + 1))). lia.
Qed.

(** The entry after one more write, and after two. *)
Lemma bump_one (e : Entry) : bump 1 e = set_e_version (increment (e_version e)) e.
Proof. reflexivity. Qed.

Lemma bump_version_safe (e : Entry) :
  - 2 ^ 53 <= e_version e < 2 ^ 53 -> e_version (bump 1 e) = e_version e + 1.
Proof. intros Hv. rewrite bump_one. simpl. by apply increment_safe. Qed.

End NumberProperties.

(** * Properties of an entry *)

Section EntryProperties.
Context `{Platform}.

Ltac unfold_eff :=
  unfold this, update, var, assign in *;
  unfold bind, ret, gets, modify, on_snd, throw, try_catch, id in *.

(** ** The write path *)

Lemma writeToStorage_total (e : Entry) (w : World) :
  exists w', writeToStorage (e, w) = (Normal tt, (bump 1 e, w')).
Proof.
  rewrite bump_one.
  unfold writeToStorage, stringify_object, console_log. unfold_eff. simpl.
  destruct (JSON_stringify _) as [[text|]|]; simpl.
  - destruct (setItem (e_storage e) (key (e_config e)) text w) as [[[]|err] w''];
      simpl; eauto.
  - destruct (setItem (e_storage e) (key (e_config e)) "undefined" w) as [[[]|err] w''];
      simpl; eauto.
  - eauto.
Qed.

Lemma writeToStorage_success (e : Entry) (w w' : World) (text : string) :
  JSON_stringify (persisted_record (bump 1 e)) = Some (Some text) ->
  setItem (e_storage e) (key (e_config e)) text w = (Normal tt, w') ->
  writeToStorage (e, w) = (Normal tt, (bump 1 e, w')).
Proof.
  rewrite bump_one. intros Hs Hw.
  unfold writeToStorage, stringify_object, console_log in *. unfold_eff. simpl.
  rewrite Hs. simpl. rewrite Hw. reflexivity.
Qed.

Lemma bump_bump (e : Entry) : bump 1 (bump 1 e) = bump 2 e.
Proof. reflexivity. Qed.

Lemma bump_version_ge (e : Entry) : e_version e <= e_version (bump 1 e).
Proof. rewrite bump_one. simpl. apply increment_ge. Qed.

(** C6 (as amended): the write path never throws, whatever
    [JSON.stringify] and the adapter's [setItem] do; it leaves the value
    alone and the version incremented as [++] increments a double, so never
    lower; the next write increments again, and when that one goes through,
    the adapter holds the record with the twice incremented version.  While
    the version is an integer from [-2^53] to below [2^53 - 1], each
    increment adds one, and the later write carries the version two above
    the start. *)
Theorem writeToStorage_failure_contained (e : Entry) (w : World) :
  exists w1 w2,
    writeToStorage (e, w) = (Normal tt, (bump 1 e, w1))
    /\ e_signal (bump 1 e) = e_signal e
    /\ e_version (bump 1 e) = increment (e_version e)
    /\ e_version e <= e_version (bump 1 e)
    /\ writeToStorage (bump 1 e, w1) = (Normal tt, (bump 2 e, w2))
    /\ e_version (bump 2 e) = increment (increment (e_version e))
    /\ (forall text w',
          JSON_stringify
            (VObj [("value", e_signal e);
                   ("version", VNum (increment (increment (e_version e))));
                   ("originId", jsval_of_originId (e_originId e))]) = Some (Some text) ->
          setItem (e_storage e) (key (e_config e)) text w1 = (Normal tt, w') ->
          w2 = w')
    /\ (- 2 ^ 53 <= e_version e < 2 ^ 53 - 1 ->
        e_version (bump 1 e) = e_version e + 1
        /\ e_version (bump 2 e) = e_version e + 2).
Proof.
  destruct (writeToStorage_total e w) as [w1 H1].
  destruct (writeToStorage_total (bump 1 e) w1) as [w2 H2].
  rewrite bump_bump in H2.
  exists w1, w2. split_and!; try assumption; try reflexivity.
  - apply bump_version_ge.
  - intros text w' Hs Hw.
    pose proof (writeToStorage_success (bump 1 e) w1 w' text Hs Hw) as Hok.
    rewrite bump_bump, H2 in Hok. congruence.
  - intros Hsafe.
    assert (H1v : e_version (bump 1 e) = e_version e + 1)
      by (apply bump_version_safe; lia).
    split; [exact H1v|].
    rewrite <- bump_bump, bump_version_safe by lia. lia.
Qed.
(** ** The debounced writer inside an entry *)

Arguments writeToStorage : simpl never.

(** A call of the debounced writer records the call and leaves a timer
    armed; it never invokes [writeToStorage] itself. *)
Lemma debounced_write (d : DebounceState unit unit unit) (e : Entry) (w : World) :
  exists d' w',
    debounced write_func write_wait write_options (Some tt) tt (d, (e, w))
      = (Normal (result d), (d', (e, w')))
    /\ lastArgs d' = Some tt
    /\ is_Some (timerId d')
    /\ lastCallTime d' = Some (clock w)
    /\ w' = match timerId d with
            | Some _ => w
            | None => snd (world_setTimeout write_wait w)
            end.
Proof.
  unfold debounced, leadingEdge, startTimer, maxing, leading, write_options.
  unfold_eff. simpl.
  destruct (shouldInvoke _ _ d (clock w)); destruct (timerId d) as [t|] eqn:Ht;
    repeat (progress (cbn; rewrite ?Ht));
    eexists _, _; (split; [reflexivity|]); cbn; repeat split; eauto.
Qed.

Lemma trailingEdge_pending (d : DebounceState unit unit unit) (e : Entry)
    (w w' : World) (time : Z) :
  is_Some (lastArgs d) ->
  writeToStorage (e, w) = (Normal tt, (bump 1 e, w')) ->
  trailingEdge write_func write_options time (d, (e, w))
    = (Normal (Some tt), (delivered d time, (bump 1 e, w'))).
Proof.
  intros [a Ha] Hw.
  unfold trailingEdge, invokeFunc, trailing, write_options, write_func.
  unfold_eff. cbn. rewrite Ha. cbn. rewrite Hw. reflexivity.
Qed.

Lemma trailingEdge_idle (d : DebounceState unit unit unit) (e : Entry)
    (w : World) (time : Z) :
  lastArgs d = None ->
  exists d', trailingEdge write_func write_options time (d, (e, w))
    = (Normal (result d), (d', (e, w))).
Proof.
  intros Ha.
  unfold trailingEdge, invokeFunc, trailing, write_options, write_func.
  unfold_eff. cbn. rewrite Ha. cbn. eauto.
Qed.

Lemma flush_pending (d : DebounceState unit unit unit) (e : Entry) (w w' : World) :
  pending d = true ->
  writeToStorage (e, w) = (Normal tt, (bump 1 e, w')) ->
  flush write_func write_options (d, (e, w))
    = (Normal (Some tt), (delivered d (clock w), (bump 1 e, w'))).
Proof.
  unfold pending. rewrite andb_true_iff, !bool_decide_eq_true.
  intros [[t Ht] Ha] Hw.
  unfold flush. unfold_eff. cbn. rewrite Ht. cbn.
  apply (trailingEdge_pending d e w w' (clock w) Ha Hw).
Qed.

Lemma flush_idle (d : DebounceState unit unit unit) (e : Entry) (w : World) :
  pending d = false ->
  exists d', flush write_func write_options (d, (e, w))
    = (Normal (result d), (d', (e, w))).
Proof.
  unfold pending. rewrite andb_false_iff, !bool_decide_eq_false.
  intros Hp.
  unfold flush. unfold_eff. cbn.
  destruct (timerId d) as [t|] eqn:Ht; cbn.
  - destruct Hp as [Hp | Hp]; [exfalso; apply Hp; eauto |].
    apply trailingEdge_idle. destruct (lastArgs d); [exfalso; apply Hp; eauto | done].
  - eauto.
Qed.

Lemma flush_writes (d : DebounceState unit unit unit) (e : Entry) (w : World) :
  exists x d' e' w',
    flush write_func write_options (d, (e, w)) = (Normal x, (d', (e', w')))
    /\ writes e e'.
Proof.
  destruct (pending d) eqn:Hp.
  - destruct (writeToStorage_total e w) as [w' Hw].
    rewrite (flush_pending d e w w' Hp Hw). eexists _, _, _, _. split; [done | constructor].
  - destruct (flush_idle d e w Hp) as [d' ->]. eexists _, _, _, _. split; [done | constructor].
Qed.

Lemma timerExpired_writes (d : DebounceState unit unit unit) (e : Entry) (w : World) :
  exists d' e' w',
    timerExpired write_func write_wait write_options (d, (e, w))
      = (Normal tt, (d', (e', w')))
    /\ writes e e'.
Proof.
  unfold timerExpired. unfold_eff. cbn [fst snd Date_now ES_TimerHost].
  destruct (shouldInvoke _ _ d (clock w)).
  - destruct (lastArgs d) as [a|] eqn:Ha.
    + destruct (writeToStorage_total e w) as [w' Hw].
      rewrite (trailingEdge_pending d e w w' (clock w) (ltac:(eauto)) Hw).
      eexists _, _, _. split; [done | constructor].
    + destruct (trailingEdge_idle d e w (clock w) Ha) as [d' ->].
      eexists _, _, _. split; [done | constructor].
  - unfold startTimer. unfold_eff.
    destruct (timerId d) as [t|] eqn:Ht; repeat (progress (cbn; rewrite ?Ht));
      eexists _, _, _; (split; [reflexivity | constructor]).
Qed.

(** ** Calls through [this.#debouncedWrite?.] *)

Lemma with_debouncedWrite_none {X} (m : Eff (DebounceState unit unit unit * ES) X)
    (e : Entry) (w : World) :
  e_debouncedWrite e = None ->
  with_debouncedWrite m (e, w) = (Normal None, (e, w)).
Proof. intros He. unfold with_debouncedWrite. simpl. by rewrite He. Qed.

Lemma with_debouncedWrite_some {X} (m : Eff (DebounceState unit unit unit * ES) X)
    (e e' : Entry) (w w' : World) (d d' : DebounceState unit unit unit) (x : X) :
  e_debouncedWrite e = Some d ->
  m (d, (e, w)) = (Normal x, (d', (e', w'))) ->
  with_debouncedWrite m (e, w)
    = (Normal (Some x), (set_e_debouncedWrite (Some d') e', w')).
Proof. intros He Hm. unfold with_debouncedWrite. simpl. by rewrite He, Hm. Qed.

Lemma same_wiring_refl (e : Entry) : same_wiring e e.
Proof. by unfold same_wiring. Qed.

Lemma same_wiring_trans (e1 e2 e3 : Entry) :
  same_wiring e1 e2 -> same_wiring e2 e3 -> same_wiring e1 e3.
Proof.
  unfold same_wiring. intros (? & ? & ?) (? & ? & ?).
  repeat split; try congruence; tauto.
Qed.

Lemma wired_same_wiring (e e' : Entry) : same_wiring e e' -> wired e -> wired e'.
Proof.
  unfold same_wiring, wired. intros (Hr & Hd & Hw) [Hpos Hneg].
  rewrite Hr, Hd. split.
  - intros Hlt. destruct (Hpos Hlt) as [Hs ?]. split; [|done].
    destruct (e_debouncedWrite e') eqn:He'; [eauto|].
    destruct Hw as [Hw _]. rewrite (Hw eq_refl) in Hs. by destruct Hs.
  - intros Hle. destruct (Hneg Hle). split; [tauto | done].
Qed.

(** A delivery through the entry's writer keeps the wiring, the value,
    the origin and the configuration. *)
Lemma with_debouncedWrite_frame {X} (m : Eff (DebounceState unit unit unit * ES) X) :
  (forall d e w, exists x d' e' w',
      m (d, (e, w)) = (Normal x, (d', (e', w'))) /\ writes e e') ->
  forall e w, exists r e' w',
    with_debouncedWrite m (e, w) = (Normal r, (e', w'))
    /\ same_wiring e e' /\ e_signal e' = e_signal e.
Proof.
  intros Hm e w. destruct (e_debouncedWrite e) as [d|] eqn:He.
  - destruct (Hm d e w) as (x & d' & e' & w' & Hrun & Hwr).
    rewrite (with_debouncedWrite_some m e e' w w' d d' x He Hrun).
    eexists _, _, _. split; [reflexivity|].
    destruct Hwr; unfold same_wiring; simpl; rewrite ?He; split_and!; try done.
  - rewrite (with_debouncedWrite_none m e w He).
    eexists _, _, _. split; [reflexivity|]. split; [apply same_wiring_refl | done].
Qed.

Lemma persistence_effect_mounted (d : DebounceState unit unit unit) (e : Entry) (w : World) :
  e_debouncedWrite e = Some d ->
  exists d' w',
    persistence_effect (e, w) = (Normal tt, (set_e_debouncedWrite (Some d') e, w'))
    /\ lastArgs d' = Some tt
    /\ is_Some (timerId d')
    /\ lastCallTime d' = Some (clock w)
    /\ w' = match timerId d with
            | Some _ => w
            | None => snd (world_setTimeout write_wait w)
            end.
Proof.
  intros He. destruct (debounced_write d e w) as (d' & w' & Hrun & Hfacts).
  exists d', w'. split; [|exact Hfacts].
  unfold persistence_effect, bind.
  by rewrite (with_debouncedWrite_some _ e e w w' d d' (result d) He Hrun).
Qed.

Lemma persistence_effect_unmounted (e : Entry) (w : World) :
  e_debouncedWrite e = None ->
  persistence_effect (e, w) = (Normal tt, (e, w)).
Proof.
  intros He. unfold persistence_effect, bind.
  by rewrite with_debouncedWrite_none.
Qed.

Lemma persistence_effect_frame (e : Entry) (w : World) :
  exists e' w',
    persistence_effect (e, w) = (Normal tt, (e', w'))
    /\ same_wiring e e' /\ e_signal e' = e_signal e /\ e_version e' = e_version e
    /\ e_originId e' = e_originId e.
Proof.
  destruct (e_debouncedWrite e) as [d|] eqn:He.
  - destruct (persistence_effect_mounted d e w He) as (d' & w' & -> & _).
    eexists _, _. split; [reflexivity|].
    unfold same_wiring; simpl; rewrite ?He; split_and!; done.
  - rewrite (persistence_effect_unmounted e w He).
    eexists _, _. split; [reflexivity|]. split_and!; done.
Qed.

(** ** Setting the signal *)

Lemma strict_equal_eq (a b : jsval) : strict_equal a b = true -> a = b.
Proof.
  destruct a, b; simpl; try discriminate; try done.
  - intros Hb. f_equal. by apply Bool.eqb_prop.
  - intros Hn. f_equal. by apply Z.eqb_eq.
  - intros Hs. f_equal. by apply String.eqb_eq.
  - intros Hn. f_equal. by apply Z.eqb_eq.
Qed.

Lemma signal_set_same (v : jsval) (e : Entry) (w : World) :
  strict_equal v (e_signal e) = true ->
  signal_set v (e, w) = (Normal tt, (e, w)).
Proof. intros Heq. unfold signal_set. unfold_eff. simpl. by rewrite Heq. Qed.

Lemma signal_set_changed (v : jsval) (e : Entry) (w : World) :
  strict_equal v (e_signal e) = false ->
  signal_set v (e, w) =
    if e_disposeEffect e then persistence_effect (set_e_signal v e, w)
    else (Normal tt, (set_e_signal v e, w)).
Proof.
  intros Hne. unfold signal_set. unfold_eff. simpl. rewrite Hne. simpl.
  by destruct (e_disposeEffect e).
Qed.

Lemma signal_set_frame (v : jsval) (e : Entry) (w : World) :
  exists e' w',
    signal_set v (e, w) = (Normal tt, (e', w'))
    /\ same_wiring e e' /\ e_signal e' = v /\ e_version e' = e_version e
    /\ e_originId e' = e_originId e.
Proof.
  destruct (strict_equal v (e_signal e)) eqn:Heq.
  - rewrite (signal_set_same v e w Heq). eexists _, _. split; [reflexivity|].
    apply strict_equal_eq in Heq. split_and!; done.
  - rewrite (signal_set_changed v e w Heq). destruct (e_disposeEffect e) eqn:Hd.
    + destruct (persistence_effect_frame (set_e_signal v e) w)
        as (e' & w' & -> & Hsame & Hsig & Hver & Hor).
      eexists _, _. split; [reflexivity|]. split_and!; done.
    + eexists _, _. split; [reflexivity|]. by unfold same_wiring.
Qed.

(** ** The merge *)

Lemma resolve_action (localVersion : Z) (localOrigin : option string) (r : AtomState) :
  String.prefix "accepted" (snd (resolve localVersion localOrigin r))
    = fst (resolve localVersion localOrigin r).
Proof.
  unfold resolve.
  destruct (localVersion <? version r); [done|].
  destruct (version r =? localVersion); [|done].
  by destruct (truthy_opt_string localOrigin && _).
Qed.

Lemma accepts_iff (e : Entry) (r : AtomState) :
  accepts e r = true <->
    e_version e < version r
    \/ (version r = e_version e
        /\ exists localOrigin, e_originId e = Some localOrigin /\ localOrigin <> ""
             /\ 0 < localeCompare (originId r) localOrigin).
Proof.
  unfold accepts, resolve.
  destruct (Z.ltb_spec (e_version e) (version r)) as [Hlt | Hge]; simpl.
  { split; [intros _; by left | done]. }
  destruct (Z.eqb_spec (version r) (e_version e)) as [Heq | Hne]; simpl.
  2: { split; [done | intros [? | [? _]]; lia]. }
  destruct (e_originId e) as [lo|]; simpl.
  2: { split; [done | intros [? | (_ & lo & ? & _)]; [lia | done]]. }
  unfold truthy_string. destruct (String.eqb_spec lo "") as [-> | Hlo]; simpl.
  { split; [done | intros [? | (_ & lo & [= <-] & ? & _)]; [lia | done]]. }
  destruct (Z.ltb_spec 0 (localeCompare (originId r) lo)) as [Hc | Hc]; simpl.
  - split; [intros _ | done]. right. split; [done|]. by exists lo.
  - split; [done|]. intros [? | (_ & lo' & [= <-] & _ & ?)]; lia.
Qed.

Lemma syncWith_ignored (r : AtomState) (e : Entry) (w : World) :
  accepts e r = false ->
  syncWith r (e, w) = (Normal tt, (e, w)).
Proof.
  unfold accepts. intros Hacc.
  pose proof (resolve_action (e_version e) (e_originId e) r) as Hact.
  unfold syncWith. unfold_eff. simpl.
  destruct (resolve (e_version e) (e_originId e) r) as [shouldUpdate actionTaken].
  simpl in *. subst shouldUpdate. rewrite Hact, andb_false_r. reflexivity.
Qed.

(** What an accepted remote state leaves: the signal is set, then the
    version; in a development build the action is logged. *)
Lemma syncWith_accepted (r : AtomState) (e : Entry) (w : World) :
  accepts e r = true ->
  exists e1 w1 w',
    signal_set (value r) (e, w) = (Normal tt, (e1, w1))
    /\ syncWith r (e, w) = (Normal tt, (set_e_version (version r) e1, w'))
    /\ clock w' = clock w1 /\ timers w' = timers w1 /\ store w' = store w1.
Proof.
  unfold accepts. intros Hacc.
  pose proof (resolve_action (e_version e) (e_originId e) r) as Hact.
  destruct (signal_set_frame (value r) e w) as (e1 & w1 & Hset & _).
  unfold syncWith. unfold_eff. simpl.
  destruct (resolve (e_version e) (e_originId e) r) as [shouldUpdate actionTaken].
  simpl in *. subst shouldUpdate. rewrite Hact, Hset. simpl.
  destruct (String.eqb NODE_ENV "development"); simpl;
    eexists _, _, _; (split; [reflexivity|]); (split; [reflexivity|]); done.
Qed.

Lemma syncWith_frame (r : AtomState) (e : Entry) (w : World) :
  exists e' w',
    syncWith r (e, w) = (Normal tt, (e', w'))
    /\ same_wiring e e' /\ e_originId e' = e_originId e
    /\ (accepts e r = true -> e_signal e' = value r /\ e_version e' = version r)
    /\ (accepts e r = false -> e' = e /\ w' = w).
Proof.
  destruct (accepts e r) eqn:Hacc.
  - destruct (syncWith_accepted r e w Hacc) as (e1 & w1 & w' & Hset & -> & _).
    destruct (signal_set_frame (value r) e w) as (e1' & w1' & Hset' & Hsame & Hsig & _ & Hor).
    rewrite Hset in Hset'. injection Hset' as <- <-.
    eexists _, _. split; [reflexivity|]. split_and!; done.
  - rewrite (syncWith_ignored r e w Hacc).
    eexists _, _. split; [reflexivity|]. split_and!; done.
Qed.

(** C2 (as amended): a newer remote version is applied; an older one
    leaves the entry and the host as they were; on equal versions the
    remote state is applied exactly when the entry has a non-empty
    [originId] and [remote.originId.localeCompare(local)] is positive. *)
Theorem syncWith_last_writer_wins (r : AtomState) (e : Entry) (w : World) :
  exists e' w',
    syncWith r (e, w) = (Normal tt, (e', w'))
    /\ (e_version e < version r ->
          e_signal e' = value r /\ e_version e' = version r)
    /\ (version r = e_version e ->
          ((exists localOrigin, e_originId e = Some localOrigin /\ localOrigin <> ""
               /\ 0 < localeCompare (originId r) localOrigin) ->
             e_signal e' = value r /\ e_version e' = version r)
          /\ (~ (exists localOrigin, e_originId e = Some localOrigin /\ localOrigin <> ""
               /\ 0 < localeCompare (originId r) localOrigin) ->
             e' = e /\ w' = w))
    /\ (version r < e_version e -> e' = e /\ w' = w).
Proof.
  destruct (syncWith_frame r e w) as (e' & w' & Hrun & _ & _ & Hyes & Hno).
  exists e', w'. split; [exact Hrun|].
  pose proof (accepts_iff e r) as Hacc. split_and!.
  - intros Hlt. apply Hyes, Hacc. by left.
  - intros Heq. split.
    + intros Htie. apply Hyes, Hacc. by right.
    + intros Hntie. apply Hno. destruct (accepts e r); [|done].
      destruct Hacc as [Hacc _]. destruct (Hacc eq_refl) as [? | [_ ?]]; [lia | done].
  - intros Hgt. apply Hno. destruct (accepts e r); [|done].
    destruct Hacc as [Hacc _]. destruct (Hacc eq_refl) as [? | [? _]]; lia.
Qed.

(** C9: an entry constructed without an [originId] never applies a remote
    state of its own version, whatever the remote [originId]: entry and
    host are unchanged. *)
Theorem syncWith_tie_without_originId (r : AtomState) (e : Entry) (w : World) :
  e_originId e = None ->
  version r = e_version e ->
  accepts e r = false /\ syncWith r (e, w) = (Normal tt, (e, w)).
Proof.
  intros Hnone Heq.
  assert (Hacc : accepts e r = false).
  { destruct (accepts e r) eqn:Hacc; [|done].
    apply accepts_iff in Hacc as [? | (_ & lo & Hlo & _)]; [lia | congruence]. }
  split; [exact Hacc | by apply syncWith_ignored].
Qed.

(** C4: applying the same remote state a second time, whatever the host
    has become in between, changes neither the value nor the version the
    first application left. *)
Theorem syncWith_idempotent (r : AtomState) (e : Entry) (w w' : World) :
  let e1 := fst (snd (syncWith r (e, w))) in
  let e2 := fst (snd (syncWith r (e1, w'))) in
  fst (syncWith r (e, w)) = Normal tt
  /\ fst (syncWith r (e1, w')) = Normal tt
  /\ e_signal e2 = e_signal e1
  /\ e_version e2 = e_version e1.
Proof.
  destruct (syncWith_frame r e w) as (e1 & w1 & Hrun1 & _ & Hor1 & Hyes1 & Hno1).
  destruct (syncWith_frame r e1 w') as (e2 & w2 & Hrun2 & _ & _ & Hyes2 & Hno2).
  cbv zeta. rewrite Hrun1. cbn [fst snd]. rewrite Hrun2. cbn [fst snd].
  split; [done|]. split; [done|].
  destruct (accepts e1 r) eqn:Hacc1.
  - destruct (Hyes2 eq_refl) as [Hs2 Hv2].
    destruct (accepts e r) eqn:Hacc.
    + destruct (Hyes1 eq_refl) as [Hs1 Hv1]. by rewrite Hs1, Hs2, Hv1, Hv2.
    + destruct (Hno1 eq_refl) as [-> _]. congruence.
  - by destruct (Hno2 eq_refl) as [-> _].
Qed.

(** The timer of a pending call fires after the wait: the callback
    delivers, and the delivery is one run of [writeToStorage]. *)
Lemma timer_fires_pending (t : nat) (d : DebounceState unit unit unit) (e : Entry)
    (w w3 : World) (c : Z) :
  e_debouncedWrite e = Some d ->
  is_Some (lastArgs d) ->
  lastCallTime d = Some c ->
  c + write_wait <= clock w ->
  writeToStorage (e, world_clearTimeout t w) = (Normal tt, (bump 1 e, w3)) ->
  timer_fires t (e, w)
    = (Normal tt, (set_e_debouncedWrite (Some (delivered d (clock w))) (bump 1 e), w3)).
Proof.
  intros Hd Hargs Hcall Hlate Hw.
  unfold timer_fires, bind at 1, on_snd, modify. cbn [fst snd]. unfold bind.
  erewrite with_debouncedWrite_some; [reflexivity | exact Hd |].
  unfold timerExpired. unfold_eff. cbn [fst snd Date_now ES_TimerHost].
  replace (shouldInvoke write_wait write_options d _) with true.
  - cbn [world_clearTimeout clock].
    rewrite (trailingEdge_pending d e _ w3 (clock w) Hargs Hw). reflexivity.
  - symmetry. unfold shouldInvoke. rewrite Hcall. cbn [world_clearTimeout clock].
    assert (Hle : (write_wait <=? clock w - c) = true) by (apply Z.leb_le; lia).
    cbn. by rewrite Hle.
Qed.

(** C1 (as amended): when a mounted entry applies a remote state whose
    value is not the one it holds, the persistence effect runs and calls
    the debounced writer: after the acceptance a write is pending (a call
    recorded at the current time, a timer armed), and when the timer fires
    after the wait, [writeToStorage] runs on the entry: the record it
    serialises has the accepted value, the remote version after [++] (one
    more, while the remote version is below [2^53]) and the local
    [originId], and a [setItem] that succeeds stores it.  Only when the
    applied value is the one already held does the acceptance leave the
    writer and the host's timers as they were. *)
Theorem syncWith_accept_triggers_write (r : AtomState) (e : Entry) (w : World)
    (d : DebounceState unit unit unit) :
  e_debouncedWrite e = Some d ->
  e_disposeEffect e = true ->
  accepts e r = true ->
  exists e' w',
    syncWith r (e, w) = (Normal tt, (e', w'))
    /\ e_signal e' = value r
    /\ e_version e' = version r
    /\ (strict_equal (value r) (e_signal e) = false ->
          pending_write e' = true
          /\ (exists d', e_debouncedWrite e' = Some d'
                /\ lastCallTime d' = Some (clock w))
          /\ (timerId d = None ->
                timers w' = (timers w ++ [(nextTimer w, write_wait)])%list)
          /\ (forall t w2, clock w + write_wait <= clock w2 ->
                exists d2 w3,
                  timer_fires t (e', w2)
                    = (Normal tt, (set_e_debouncedWrite (Some d2) (bump 1 e'), w3))
                  /\ writeToStorage (e', world_clearTimeout t w2)
                     = (Normal tt, (bump 1 e', w3))
                  /\ persisted_record (bump 1 e')
                     = VObj [("value", value r);
                             ("version", VNum (increment (version r)));
                             ("originId", jsval_of_originId (e_originId e))]
                  /\ (forall text w4,
                        JSON_stringify (persisted_record (bump 1 e')) = Some (Some text) ->
                        setItem (e_storage e) (key (e_config e)) text
                                (world_clearTimeout t w2) = (Normal tt, w4) ->
                        w3 = w4))
          /\ (- 2 ^ 53 <= version r < 2 ^ 53 -> increment (version r) = version r + 1))
    /\ (strict_equal (value r) (e_signal e) = true ->
          e_debouncedWrite e' = Some d /\ timers w' = timers w).
Proof.
  intros Hd Heff Hacc.
  destruct (syncWith_accepted r e w Hacc) as (e1 & w1 & w' & Hset & Hrun & _ & Htim & _).
  exists (set_e_version (version r) e1), w'. split; [exact Hrun|].
  destruct (strict_equal (value r) (e_signal e)) eqn:Heq.
  - rewrite (signal_set_same _ e w Heq) in Hset. injection Hset as <- <-.
    apply strict_equal_eq in Heq. simpl. split_and!; try done.
  - rewrite (signal_set_changed _ e w Heq), Heff in Hset.
    destruct (persistence_effect_mounted d (set_e_signal (value r) e) w Hd)
      as (d' & w1' & Hpe & Hargs & Htimer & Hcall & Hw1).
    rewrite Hpe in Hset. injection Hset as <- <-. simpl.
    split_and!; try done. intros _. split_and!.
    + unfold pending_write, pending. simpl. rewrite Hargs.
      apply andb_true_iff. split; apply bool_decide_eq_true; eauto.
    + by exists d'.
    + intros Hnone. rewrite Htim, Hw1, Hnone. reflexivity.
    + intros t w2 Hlate.
      set (e' := set_e_version (version r)
                   (set_e_debouncedWrite (Some d') (set_e_signal (value r) e))).
      destruct (writeToStorage_total e' (world_clearTimeout t w2)) as [w3 Hw].
      exists (delivered d' (clock w2)), w3. split_and!.
      * apply (timer_fires_pending t d' e' w2 w3 (clock w)); first [done | by eexists].
      * exact Hw.
      * reflexivity.
      * intros text w4 Hs Hset'.
        pose proof (writeToStorage_success e' _ w4 text Hs Hset') as Hok.
        rewrite Hw in Hok. congruence.
    + apply increment_safe.
Qed.

(** ** Mounting and unmounting *)

(** [cleanupPersistence] on an entry with a pending write: the write is
    made on the entry as it stands, then the wiring is removed. *)
Lemma cleanupPersistence_pending (e : Entry) (w w' : World) :
  pending_write e = true ->
  writeToStorage (e, w) = (Normal tt, (bump 1 e, w')) ->
  cleanupPersistence (e, w) = (Normal tt, (torn_down (bump 1 e), w')).
Proof.
  unfold pending_write. destruct (e_debouncedWrite e) as [d|] eqn:Hd; [|done].
  intros Hp Hw. unfold cleanupPersistence, bind.
  rewrite (with_debouncedWrite_some _ e (bump 1 e) w w' d _ _ Hd (flush_pending d e w w' Hp Hw)).
  reflexivity.
Qed.

Lemma cleanupPersistence_idle (e : Entry) (w : World) :
  pending_write e = false ->
  cleanupPersistence (e, w) = (Normal tt, (torn_down e, w)).
Proof.
  unfold pending_write. destruct (e_debouncedWrite e) as [d|] eqn:Hd.
  - intros Hp. destruct (flush_idle d e w Hp) as [d' Hf].
    unfold cleanupPersistence, bind.
    by rewrite (with_debouncedWrite_some _ e e w w d d' _ Hd Hf).
  - intros _. unfold cleanupPersistence, bind.
    by rewrite (with_debouncedWrite_none _ e w Hd).
Qed.

Lemma cleanupPersistence_frame (e : Entry) (w : World) :
  exists e1 w',
    cleanupPersistence (e, w) = (Normal tt, (torn_down e1, w'))
    /\ e_refCount e1 = e_refCount e.
Proof.
  destruct (pending_write e) eqn:Hp.
  - destruct (writeToStorage_total e w) as [w' Hw].
    rewrite (cleanupPersistence_pending e w w' Hp Hw). by eexists _, _.
  - rewrite (cleanupPersistence_idle e w Hp). by eexists _, _.
Qed.

Lemma setupPersistence_frame (e : Entry) (w : World) :
  exists e' w',
    setupPersistence (e, w) = (Normal tt, (e', w'))
    /\ e_refCount e' = e_refCount e
    /\ is_Some (e_debouncedWrite e') /\ e_disposeEffect e' = true.
Proof.
  unfold setupPersistence, bind at 1, update, modify. cbn [fst snd].
  destruct (persistence_effect_mounted debounce (set_e_debouncedWrite (Some debounce) e) w)
    as (d' & w' & Hpe & _); [done|].
  unfold bind. rewrite Hpe. cbn [fst snd]. eexists _, _. split; [reflexivity|].
  simpl. eauto.
Qed.

Lemma mount_frame (e : Entry) (w : World) :
  exists e' w',
    mount (e, w) = (Normal tt, (e', w'))
    /\ e_refCount e' = e_refCount e + 1
    /\ (wired e -> wired e').
Proof.
  unfold mount. unfold_eff. cbn [fst snd e_refCount set_e_refCount].
  destruct (Z.eqb_spec (e_refCount e + 1) 1) as [Hone | Hne].
  - destruct (setupPersistence_frame (set_e_refCount (e_refCount e + 1) e) w)
      as (e' & w' & -> & Hrc & Hw & Hd).
    eexists _, _. split; [reflexivity|]. split; [exact Hrc|].
    intros _. unfold wired. rewrite Hrc. simpl. split; [done | lia].
  - eexists _, _. split; [reflexivity|]. split; [done|].
    unfold wired. simpl. intros [Hpos Hneg]. split; intros ?; [apply Hpos | apply Hneg]; lia.
Qed.

Lemma unmount_frame (e : Entry) (w : World) :
  exists e' w',
    unmount (e, w) = (Normal tt, (e', w'))
    /\ e_refCount e' = e_refCount e - 1
    /\ (wired e -> wired e').
Proof.
  unfold unmount. unfold_eff. cbn [fst snd e_refCount set_e_refCount].
  destruct (Z.eqb_spec (e_refCount e - 1) 0) as [Hzero | Hne].
  - destruct (cleanupPersistence_frame (set_e_refCount (e_refCount e - 1) e) w)
      as (e1 & w' & -> & Hrc).
    eexists _, _. split; [reflexivity|]. simpl in *. split; [exact Hrc|].
    intros _. unfold wired. simpl. rewrite Hrc. split; [lia | done].
  - eexists _, _. split; [reflexivity|]. split; [done|].
    unfold wired. simpl. intros [Hpos Hneg]. split; intros ?; [apply Hpos | apply Hneg]; lia.
Qed.

(** The last unmount: the count goes from 1 to 0; a pending write is
    made by [writeToStorage] on the entry while its writer and effect are
    still in place, and only then are both removed. *)
Lemma unmount_last (e : Entry) (w : World) :
  e_refCount e = 1 ->
  exists w',
    unmount (e, w)
      = (Normal tt,
         (torn_down (if pending_write e then bump 1 (set_e_refCount 0 e)
                     else set_e_refCount 0 e), w'))
    /\ (pending_write e = true ->
          writeToStorage (set_e_refCount 0 e, w)
            = (Normal tt, (bump 1 (set_e_refCount 0 e), w')))
    /\ (pending_write e = false -> w' = w).
Proof.
  intros Hone. unfold unmount. unfold_eff. cbn [fst snd e_refCount set_e_refCount].
  rewrite Hone. change (1 - 1) with 0. cbn [Z.eqb].
  destruct (pending_write e) eqn:Hp.
  - destruct (writeToStorage_total (set_e_refCount 0 e) w) as [w' Hw].
    exists w'. rewrite (cleanupPersistence_pending (set_e_refCount 0 e) w w' Hp Hw).
    done.
  - exists w. rewrite (cleanupPersistence_idle (set_e_refCount 0 e) w Hp). done.
Qed.

(** ** Traces *)

Lemma step_frame (ev : Event) (e : Entry) (w : World) :
  exists e' w',
    step ev (e, w) = (Normal tt, (e', w'))
    /\ e_refCount e' = e_refCount e + net [ev]
    /\ (wired e -> wired e').
Proof.
  destruct ev; simpl.
  - destruct (mount_frame e w) as (e' & w' & -> & Hrc & Hw).
    eexists _, _. split; [reflexivity|]. split; [lia | done].
  - destruct (unmount_frame e w) as (e' & w' & -> & Hrc & Hw).
    eexists _, _. split; [reflexivity|]. split; [lia | done].
  - destruct (signal_set_frame v e w) as (e' & w' & -> & Hsame & _).
    eexists _, _. split; [reflexivity|].
    split; [destruct Hsame as [-> _]; lia | by apply wired_same_wiring].
  - destruct (syncWith_frame remoteState e w) as (e' & w' & -> & Hsame & _).
    eexists _, _. split; [reflexivity|].
    split; [destruct Hsame as [-> _]; lia | by apply wired_same_wiring].
  - unfold entry_flush, bind.
    destruct (with_debouncedWrite_frame _ flush_writes e w) as (x & e' & w' & -> & Hsame & _).
    eexists _, _. split; [reflexivity|].
    split; [destruct Hsame as [-> _]; lia | by apply wired_same_wiring].
  - unfold timer_fires, bind, on_snd, modify. cbn [fst snd].
    destruct (with_debouncedWrite_frame
                (timerExpired write_func write_wait write_options)
                (fun d e w => ex_intro _ tt (timerExpired_writes d e w))
                e (world_clearTimeout id w)) as (x & e' & w' & -> & Hsame & _).
    eexists _, _. split; [reflexivity|].
    split; [destruct Hsame as [-> _]; lia | by apply wired_same_wiring].
  - unfold on_snd, modify. cbn [fst snd].
    eexists _, _. split; [reflexivity|]. split; [lia | done].
Qed.

Lemma run_trace_frame (trace : list Event) (e : Entry) (w : World) :
  wired e ->
  e_refCount (fst (run_trace trace (e, w))) = e_refCount e + net trace
  /\ wired (fst (run_trace trace (e, w))).
Proof.
  revert e w. induction trace as [|ev rest IH]; intros e w Hw.
  - simpl. split; [lia | done].
  - destruct (step_frame ev e w) as (e' & w' & Hstep & Hrc & Hwired).
    cbn [run_trace]. rewrite Hstep. cbn [snd].
    destruct (IH e' w' (Hwired Hw)) as [Hrc' Hw']. split; [|done].
    rewrite Hrc', Hrc. simpl. destruct ev; lia.
Qed.

Lemma constructed_wired (config : AtomConfig) (storage : StorageAdapter)
    (options : AtomRegistryEntryOptions) (v : jsval) (n : Z) :
  wired (constructed config storage options v n).
Proof. unfold wired. simpl. split; [lia | done]. Qed.

(** The constructor never throws, and the entry it returns is unmounted:
    count 0, no writer, no effect. *)
Lemma new_AtomRegistryEntry_constructed (config : AtomConfig)
    (storage : StorageAdapter) (options : AtomRegistryEntryOptions) (w : World) :
  exists v n w',
    new_AtomRegistryEntry config storage options w
      = (Normal (constructed config storage options v n), w').
Proof.
  unfold new_AtomRegistryEntry, host_call, get_prop, console_log. unfold_eff.
  destruct (negb (strict_equal (overrideValue options) VUndefined)); [eauto|].
  destruct (is_true (persistent options)); [|eauto].
  destruct (getItem storage (key config) w) as [[[text|]|err] w1]; [|eauto|eauto].
  destruct (JSON_parse text) as [parsed|]; [|eauto].
  destruct parsed; eauto.
Qed.

(** C3: over every sequence of mounts and unmounts of an entry (with
    writes, merges, flushes, timers and clock changes in between), the
    debounced writer and the persistence effect are in place exactly while
    mounts outnumber unmounts; and the unmount that brings the count back
    to zero makes a pending write, on the entry with its wiring still in
    place, before it removes the writer and the effect. *)
Theorem mount_unmount_lifecycle (config : AtomConfig) (storage : StorageAdapter)
    (options : AtomRegistryEntryOptions) (v : jsval) (n : Z) (w : World)
    (trace : list Event) :
  let s := run_trace trace (constructed config storage options v n, w) in
  let e := fst s in
  e_refCount e = net trace
  /\ (0 < net trace <-> is_Some (e_debouncedWrite e) /\ e_disposeEffect e = true)
  /\ (net trace <= 0 -> e_debouncedWrite e = None /\ e_disposeEffect e = false)
  /\ (net trace = 1 ->
        exists w',
          step Unmount s
            = (Normal tt,
               (torn_down (if pending_write e then bump 1 (set_e_refCount 0 e)
                           else set_e_refCount 0 e), w'))
          /\ (pending_write e = true ->
                writeToStorage (set_e_refCount 0 e, snd s)
                  = (Normal tt, (bump 1 (set_e_refCount 0 e), w')))
          /\ (pending_write e = false -> w' = snd s)).
Proof.
  cbv zeta.
  destruct (run_trace_frame trace (constructed config storage options v n) w
              (constructed_wired config storage options v n)) as [Hrc [Hpos Hneg]].
  simpl in Hrc. rewrite Hrc in Hpos, Hneg. split_and!.
  - exact Hrc.
  - split; [exact Hpos|]. intros [Hs Hd].
    destruct (Z.lt_ge_cases 0 (net trace)) as [? | Hle]; [done|].
    destruct (Hneg ltac:(lia)) as [_ Hoff]. congruence.
  - exact Hneg.
  - intros Hone.
    destruct (run_trace trace (constructed config storage options v n, w)) as [e w0].
    simpl in *. apply unmount_last. lia.
Qed.


End EntryProperties.

(** * Properties of the registry and of the cross-tab handler *)

Section RegistryProperties.
Context `{Platform}.

Ltac unfold_eff :=
  unfold this, update, var, assign in *;
  unfold bind, ret, gets, modify, on_snd, throw, try_catch, id in *.

Lemma registered_registry (storage : StorageAdapter) (k : string) (e : Entry)
    (regs : Registries) :
  getAtomEntryFrom storage k regs = Some e ->
  exists registry, regs !! adapter_id storage = Some registry.
Proof.
  unfold getAtomEntryFrom. destruct (regs !! adapter_id storage); [eauto | done].
Qed.

(** On a registered key [acquireEntry] never looks at its options. *)
Lemma acquireEntry_options_irrelevant (atomConfig : AtomConfig)
    (storage : StorageAdapter) (existing : Entry) (regs : Registries) (w : World)
    (o1 o2 : AtomRegistryEntryOptions) :
  getAtomEntryFrom storage (key atomConfig) regs = Some existing ->
  acquireEntry atomConfig storage o1 (regs, w)
    = acquireEntry atomConfig storage o2 (regs, w).
Proof.
  intros Hreg. destruct (registered_registry _ _ _ _ Hreg) as [registry Hr].
  unfold acquireEntry, getRegistryForStorage. unfold_eff.
  destruct (negb (truthy_string (key atomConfig))); [done|].
  cbn [fst snd]. rewrite Hr. cbn [fst snd]. by rewrite Hreg.
Qed.

(** ... and hands back the entry it has, leaving the registries alone,
    whenever the comparison of the default values goes through. *)
Lemma acquireEntry_existing (atomConfig : AtomConfig) (storage : StorageAdapter)
    (existing : Entry) (regs : Registries) (w : World) :
  key atomConfig <> "" ->
  getAtomEntryFrom storage (key atomConfig) regs = Some existing ->
  NODE_ENV = "production"
    \/ (JSON_stringify (defaultValue (e_config existing)) <> None
        /\ JSON_stringify (defaultValue atomConfig) <> None) ->
  exists w', forall options,
    acquireEntry atomConfig storage options (regs, w) = (Normal existing, (regs, w')).
Proof.
  intros Hkey Hreg Hok. destruct (registered_registry _ _ _ _ Hreg) as [registry Hr].
  unfold acquireEntry, getRegistryForStorage, stringify, truthy_string. unfold_eff.
  destruct (String.eqb_spec (key atomConfig) "") as [? | _]; [done|].
  cbn [negb fst snd]. rewrite Hr. cbn [fst snd]. rewrite Hreg.
  destruct (String.eqb_spec NODE_ENV "production") as [Hprod | Hdev]; cbn [negb].
  { by exists w. }
  destruct Hok as [? | [Hold Hnew]]; [done|].
  destruct (JSON_stringify (defaultValue (e_config existing))) as [oldDefault|]; [|done].
  destruct (JSON_stringify (defaultValue atomConfig)) as [newDefault|]; [|done].
  destruct (negb (option_string_eqb oldDefault newDefault)); cbn; eauto.
Qed.

(** C10 (where the code departs from it): in a build that is not a
    production build, [acquireEntry] on a registered key serialises the
    default values outside any [try]; when [JSON.stringify] throws on the
    registered default value the call throws instead of handing back the
    entry. *)
Theorem acquireEntry_existing_unserialisable (atomConfig : AtomConfig)
    (storage : StorageAdapter) (options : AtomRegistryEntryOptions)
    (existing : Entry) (regs : Registries) (w : World) :
  key atomConfig <> "" ->
  getAtomEntryFrom storage (key atomConfig) regs = Some existing ->
  NODE_ENV <> "production" ->
  JSON_stringify (defaultValue (e_config existing)) = None ->
  acquireEntry atomConfig storage options (regs, w) = (Throw TypeError, (regs, w)).
Proof.
  intros Hkey Hreg Hdev Hthrow. destruct (registered_registry _ _ _ _ Hreg) as [registry Hr].
  unfold acquireEntry, getRegistryForStorage, stringify, truthy_string. unfold_eff.
  destruct (String.eqb_spec (key atomConfig) "") as [? | _]; [done|].
  cbn [negb fst snd]. rewrite Hr. cbn [fst snd]. rewrite Hreg.
  destruct (String.eqb_spec NODE_ENV "production") as [? | _]; [done|].
  cbn [negb]. by rewrite Hthrow.
Qed.

(** ** The handler *)

Lemma get_prop_of {S} (p : jsval) (name : string) (s : S) :
  p <> VNull -> p <> VUndefined ->
  get_prop p name s = (Normal (prop_of p name), s).
Proof. by destruct p. Qed.

(** C5: an event whose parsed state carries the local tab id as
    [originId] never reaches the merge: whatever method stands for
    [entry.syncWith], and whatever the version, the handler returns and
    leaves every registry as it was; it can only have written to the
    console. *)
Theorem handleStorageChange_self_echo (event : StorageEvent) (text : string)
    (fields : list (string * jsval)) (regs : Registries) (w : World) :
  ev_newValue event = Some text ->
  JSON_parse text = Some (VObj fields) ->
  assoc "originId" fields = VStr localTabId ->
  exists w',
    (forall merge, handleStorageChange_with merge event (regs, w) = (Normal tt, (regs, w')))
    /\ handleStorageChange event (regs, w) = (Normal tt, (regs, w'))
    /\ clock w' = clock w /\ timers w' = timers w /\ store w' = store w.
Proof.
  intros Hnew Hparse Horigin.
  unfold handleStorageChange, handleStorageChange_with, invalid_structure, host_call,
    get_prop, console_log.
  unfold_eff. rewrite Hnew.
  destruct (ev_key event) as [k|]; [|by exists w].
  destruct (negb (truthy_string k)); [by exists w|].
  cbn [fst snd]. destruct (getAtomEntryFrom localStorageAdapter k regs); [|by exists w].
  rewrite Hparse. cbn [fst snd]. rewrite Horigin.
  destruct (assoc "value" fields) eqn:Hv;
    destruct (assoc "version" fields) eqn:Hn;
    rewrite ?String.eqb_refl;
    destruct (String.eqb NODE_ENV "development");
    cbn [fst snd]; eexists; (split; [intros merge; reflexivity|]); done.
Qed.

(** What the handler does turn away: events without a key or without a
    new value, keys that are not registered, texts that do not parse, and
    parsed values other than [null] that lack a defined [value], a numeric
    [version] or a string [originId].  The handler returns and every
    registry is as before. *)
Lemma handleStorageChange_ignores (event : StorageEvent) (regs : Registries) (w : World) :
  ev_key event = None \/ ev_key event = Some "" \/ ev_newValue event = None
  \/ (exists k, ev_key event = Some k
         /\ getAtomEntryFrom localStorageAdapter k regs = None)
  \/ (exists text, ev_newValue event = Some text /\ JSON_parse text = None)
  \/ (exists text p, ev_newValue event = Some text /\ JSON_parse text = Some p
         /\ p <> VNull /\ p <> VUndefined /\ malformed p) ->
  exists w', handleStorageChange event (regs, w) = (Normal tt, (regs, w')).
Proof.
  intros Hcase.
  unfold handleStorageChange, handleStorageChange_with, invalid_structure, host_call,
    console_log, truthy_string.
  unfold_eff.
  destruct (ev_key event) as [k|]; [|by exists w].
  destruct (ev_newValue event) as [text|]; [|by exists w].
  destruct (String.eqb_spec k "") as [-> | Hk]; [by exists w|].
  cbn [negb fst snd].
  destruct (getAtomEntryFrom localStorageAdapter k regs) as [entry|] eqn:Hreg; [|by exists w].
  destruct (JSON_parse text) as [p|] eqn:Hparse; cbn [fst snd]; [|eauto].
  assert (Hp : p <> VNull /\ p <> VUndefined /\ malformed p).
  { destruct Hcase as [? | [[= ?] | [? | [(k' & [= <-] & ?) | [(t & [= <-] & ?) | Hbad]]]]];
      try congruence.
    destruct Hbad as (t & p' & [= <-] & Hp' & ?). congruence. }
  destruct Hp as (Hnull & Hundef & Hbad).
  rewrite !get_prop_of by done. cbn [fst snd].
  unfold malformed in Hbad.
  destruct (prop_of p "value"), (prop_of p "version"), (prop_of p "originId");
    simpl in Hbad; try (destruct Hbad as [? | [? | ?]]; discriminate);
    destruct (String.eqb NODE_ENV "development"); cbn [fst snd]; eauto.
Qed.

(** C7 (where the code departs from it): for a registered key, a new
    value that parses to [null] makes the handler throw a TypeError: the
    property [value] is read outside the [try] that guards the parse. *)
Theorem handleStorageChange_null_throws (k text : string) (entry : Entry)
    (regs : Registries) (w : World) :
  k <> "" ->
  getAtomEntryFrom localStorageAdapter k regs = Some entry ->
  JSON_parse text = Some VNull ->
  handleStorageChange {| ev_key := Some k; ev_newValue := Some text |} (regs, w)
    = (Throw TypeError, (regs, w)).
Proof.
  intros Hk Hreg Hparse.
  unfold handleStorageChange, handleStorageChange_with, host_call, get_prop, truthy_string.
  unfold_eff. cbn [ev_key ev_newValue].
  destruct (String.eqb_spec k "") as [? | _]; [done|].
  cbn [negb fst snd]. rewrite Hreg, Hparse. reflexivity.
Qed.

End RegistryProperties.

(** * The properties on the concrete platform *)

Section Examples.
Import Sample.

(** The scenario of the specification: a counter starting at 0, set to 1,
    2 and 3 within the debounce window, then unmounted: one write, with
    value 3 and version 1. *)
Example three_increments_one_write :
  let s := run_trace
             [Mount; ClockShows 10; SetValue (VNum 1); ClockShows 20; SetValue (VNum 2);
              ClockShows 30; SetValue (VNum 3); ClockShows 50; Unmount]
             (entry_of counter (VNum 0) 0 (Some "tab-local"), world0) in
  e_version (fst s) = 1
  /\ store (snd s) !! "counter" = Some (text (record (VNum 3) 1 "tab-local"))
  /\ List.length (console (snd s)) = 1%nat.
Proof. vm_compute. done. Qed.

(** A write that fails (the value is a BigInt) and the next one that goes
    through: the stored record carries version 2. *)
Example write_after_failed_write :
  let failed := snd (writeToStorage (entry_of counter (VBigInt 1) 0 (Some "tab-local"), world0)) in
  let retried := snd (writeToStorage (set_e_signal (VNum 3) (fst failed), snd failed)) in
  e_version (fst failed) = 1
  /\ store (snd failed) !! "counter" = None
  /\ e_version (fst retried) = 2
  /\ store (snd retried) !! "counter" = Some (text (record (VNum 3) 2 "tab-local")).
Proof. vm_compute. done. Qed.

(** C6, counterexample: the counter is at version [2^53] and holds a
    BigInt, so its first write fails; the increment leaves the version at
    [2^53].  The value is then set to 3 and the next write goes through:
    the record it stores carries version [2^53], the version the entry
    started with, not a higher one. *)
Lemma writeToStorage_version_limit_cex :
  let limit := 2 ^ 53 in
  let failed :=
    snd (writeToStorage (entry_of counter (VBigInt 1) limit (Some "tab-local"), world0)) in
  let retried := snd (writeToStorage (set_e_signal (VNum 3) (fst failed), snd failed)) in
  store (snd failed) !! "counter" = None
  /\ e_version (fst failed) = limit
  /\ e_version (fst retried) = limit
  /\ store (snd retried) !! "counter" = Some (text (record (VNum 3) limit "tab-local"))
  /\ text (record (VNum 3) limit "tab-local")
     = "{" +:+ quote +:+ "value" +:+ quote +:+ ":3,"
           +:+ quote +:+ "version" +:+ quote +:+ ":9007199254740992,"
           +:+ quote +:+ "originId" +:+ quote +:+ ":" +:+ quote +:+ "tab-local" +:+ quote
           +:+ "}".
Proof. vm_compute. done. Qed.

(** C6, an instance: the failed write of a counter at version 0, through
    the theorem. *)
Lemma writeToStorage_failure_contained_witness :
  let e := entry_of counter (VBigInt 1) 0 (Some "tab-local") in
  - 2 ^ 53 <= e_version e < 2 ^ 53 - 1
  /\ exists w1 w2,
       writeToStorage (e, world0) = (Normal tt, (bump 1 e, w1))
       /\ writeToStorage (bump 1 e, w1) = (Normal tt, (bump 2 e, w2))
       /\ e_version (bump 1 e) = 1
       /\ e_version (bump 2 e) = 2.
Proof.
  cbv zeta.
  assert (Hsafe : - 2 ^ 53 <= e_version (entry_of counter (VBigInt 1) 0 (Some "tab-local"))
                  < 2 ^ 53 - 1)
    by (vm_compute; split; [discriminate | reflexivity]).
  split; [exact Hsafe|].
  destruct (writeToStorage_failure_contained
              (entry_of counter (VBigInt 1) 0 (Some "tab-local")) world0)
    as (w1 & w2 & H1 & _ & _ & _ & H2 & _ & _ & Hrange).
  destruct (Hrange Hsafe) as [Hv1 Hv2].
  exists w1, w2. split_and!; assumption.
Defined.

(** C8, counterexample: [debounce(tick, 100, { leading: true, maxWait: 50 })]
    is called at time 1000 and invokes [tick] at once.  At time 1060 the
    configured [maxWait] of 50 has elapsed since that invocation, yet
    [shouldInvoke] is false: the code compares with [max(50, 100)]. *)
Lemma shouldInvoke_configured_maxWait_cex :
  console (snd called_at_1000) = [(LogInfo, "tick")]
  /\ lastInvokeTime (fst called_at_1000) = 1000
  /\ should_invoke_as_configured 100 hurried (fst called_at_1000) 1060
  /\ shouldInvoke 100 hurried (fst called_at_1000) 1060 = false.
Proof.
  split_and!; try (vm_compute; reflexivity).
  right; right; right. exists 50. split; [reflexivity | vm_compute; discriminate].
Qed.

(** C1, counterexample: a mounted counter with nothing pending accepts the
    remote state (7, version 5).  The acceptance leaves a write pending and
    a timer armed, and when that timer fires the entry overwrites the
    stored record with version 6 under its own origin. *)
Lemma syncWith_accept_schedules_write_cex :
  let r := remote (VNum 7) 5 "zzz" in
  let s' := snd (syncWith r mounted_idle) in
  let s'' := run_trace [ClockShows 600; TimerFires 1] s' in
  pending_write (fst mounted_idle) = false
  /\ timers (snd mounted_idle) = []
  /\ accepts (fst mounted_idle) r = true
  /\ pending_write (fst s') = true
  /\ timers (snd s') = [(1%nat, 100)]
  /\ store (snd s'') !! "counter" = Some (text (record (VNum 7) 6 "tab-local")).
Proof. vm_compute. done. Qed.

(** C1, an instance: the same acceptance through the theorem; the record
    of the scheduled write has the accepted value 7, version 6 and the
    local origin. *)
Lemma syncWith_accept_triggers_write_witness :
  let r := remote (VNum 7) 5 "zzz" in
  let e := fst mounted_idle in
  let w := snd mounted_idle in
  e_debouncedWrite e = Some idle_writer
  /\ e_disposeEffect e = true
  /\ accepts e r = true
  /\ strict_equal (value r) (e_signal e) = false
  /\ exists e' w',
       syncWith r (e, w) = (Normal tt, (e', w'))
       /\ pending_write e' = true
       /\ persisted_record (bump 1 e') = record (VNum 7) 6 "tab-local".
Proof.
  cbv zeta.
  assert (Hd : e_debouncedWrite (fst mounted_idle) = Some idle_writer)
    by (vm_compute; reflexivity).
  assert (He : e_disposeEffect (fst mounted_idle) = true) by (vm_compute; reflexivity).
  assert (Ha : accepts (fst mounted_idle) (remote (VNum 7) 5 "zzz") = true)
    by (vm_compute; reflexivity).
  assert (Hne : strict_equal (value (remote (VNum 7) 5 "zzz"))
                  (e_signal (fst mounted_idle)) = false)
    by (vm_compute; reflexivity).
  assert (Hlate : clock (snd mounted_idle) + write_wait
                  <= clock (set_clock 600 (snd mounted_idle)))
    by (vm_compute; discriminate).
  split_and!; try assumption.
  destruct (syncWith_accept_triggers_write (remote (VNum 7) 5 "zzz")
              (fst mounted_idle) (snd mounted_idle) idle_writer Hd He Ha)
    as (e' & w' & Hrun & _ & _ & Hchanged & _).
  destruct (Hchanged Hne) as (Hpending & _ & _ & Hfires & _).
  destruct (Hfires 1%nat (set_clock 600 (snd mounted_idle)) Hlate)
    as (d2 & w3 & _ & _ & Hrec & _).
  exists e', w'. split_and!; [exact Hrun | exact Hpending | exact Hrec].
Defined.

(** The ordering test of the specification: at equal versions, remote
    [bbb] wins over local [aaa], and remote [aaa] loses to local [bbb]. *)
Example tie_break_by_originId :
  let local o := (entry_of counter (VNum 5) 3 (Some o), world0) in
  e_signal (fst (snd (syncWith (remote (VNum 7) 3 "bbb") (local "aaa")))) = VNum 7
  /\ e_signal (fst (snd (syncWith (remote (VNum 7) 3 "aaa") (local "bbb")))) = VNum 5.
Proof. vm_compute. done. Qed.

(** With the code-unit order as collation, and a non-empty local
    [originId], a tie goes to the remote state exactly when its
    [originId] is the greater one in the lexicographic order. *)
Lemma tie_break_lexicographic (e : Entry) (r : AtomState) (localOrigin : string) :
  version r = e_version e ->
  e_originId e = Some localOrigin ->
  localOrigin <> "" ->
  accepts e r = true <-> String.compare (originId r) localOrigin = Gt.
Proof.
  intros Hv Ho Hne. rewrite accepts_iff. simpl. unfold code_unit_compare. split.
  - intros [? | (_ & lo & Hlo & _ & Hc)]; [lia|].
    rewrite Ho in Hlo. injection Hlo as <-.
    by destruct (String.compare (originId r) localOrigin).
  - intros Hgt. right. split; [done|]. exists localOrigin. by rewrite Hgt.
Qed.

(** C2, counterexample: an entry whose [originId] is the empty string, at
    version 3, receives a remote state of version 3 from origin [a].  In
    the lexicographic order [a] sorts strictly after the empty string, yet
    the entry ignores the remote state. *)
Lemma syncWith_tie_empty_originId_cex :
  let e := entry_of counter (VNum 5) 3 (Some "") in
  let r := remote (VNum 7) 3 "a" in
  version r = e_version e
  /\ String.compare (originId r) "" = Gt
  /\ syncWith r (e, world0) = (Normal tt, (e, world0)).
Proof. cbv zeta. split_and!; reflexivity. Qed.

(** C9, an instance: no [originId], the versions tie at 3. *)
Lemma syncWith_tie_without_originId_witness :
  let e := entry_of counter (VNum 5) 3 None in
  let r := remote (VNum 7) 3 "zzz" in
  e_originId e = None
  /\ version r = e_version e
  /\ accepts e r = false
  /\ syncWith r (e, world0) = (Normal tt, (e, world0)).
Proof.
  cbv zeta. split; [reflexivity|]. split; [reflexivity|].
  exact (syncWith_tie_without_originId (remote (VNum 7) 3 "zzz")
           (entry_of counter (VNum 5) 3 None) world0 eq_refl eq_refl).
Defined.

(** C5, an instance: the tab's own record comes back with version 9
    while the entry is at version 3. *)
Lemma handleStorageChange_self_echo_witness :
  let event := {| ev_key := Some "counter";
                  ev_newValue := Some (text (record (VNum 7) 9 "tab-local")) |} in
  let regs := registered (entry_of counter (VNum 0) 3 (Some "tab-local")) in
  exists w',
    (forall merge,
        handleStorageChange_with merge event (regs, world0) = (Normal tt, (regs, w')))
    /\ handleStorageChange event (regs, world0) = (Normal tt, (regs, w'))
    /\ clock w' = clock world0 /\ timers w' = timers world0 /\ store w' = store world0.
Proof.
  cbv zeta.
  refine (handleStorageChange_self_echo
            {| ev_key := Some "counter";
               ev_newValue := Some (text (record (VNum 7) 9 "tab-local")) |}
            (text (record (VNum 7) 9 "tab-local"))
            [("value", VNum 7); ("version", VNum 9); ("originId", VStr "tab-local")]
            (registered (entry_of counter (VNum 0) 3 (Some "tab-local")))
            world0 eq_refl _ eq_refl).
  vm_compute. reflexivity.
Defined.

(** C7, an instance: the key [counter] is registered and the new value
    is the text [null]. *)
Lemma handleStorageChange_null_throws_witness :
  let regs := registered (entry_of counter (VNum 0) 3 (Some "tab-local")) in
  JSON_parse "null" = Some VNull
  /\ handleStorageChange {| ev_key := Some "counter"; ev_newValue := Some "null" |}
       (regs, world0)
     = (Throw TypeError, (regs, world0)).
Proof.
  cbv zeta. split; [reflexivity|].
  refine (handleStorageChange_null_throws "counter" "null"
            (entry_of counter (VNum 0) 3 (Some "tab-local"))
            (registered (entry_of counter (VNum 0) 3 (Some "tab-local")))
            world0 _ _ eq_refl).
  - discriminate.
  - reflexivity.
Defined.

(** C10, an instance: the atom [big], whose default value is a BigInt, is
    registered; acquiring it again in a development build throws. *)
Lemma acquireEntry_existing_unserialisable_witness :
  let existing := entry_of big (VBigInt 1) 0 (Some "tab-local") in
  let options :=
    {| overrideValue := VUndefined; init_originId := Some "tab-local";
       persistent := Some true |} in
  getAtomEntryFrom localStorageAdapter "big" (registered existing) = Some existing
  /\ acquireEntry big localStorageAdapter options (registered existing, world0)
     = (Throw TypeError, (registered existing, world0)).
Proof.
  cbv zeta.
  assert (Hreg : getAtomEntryFrom localStorageAdapter (key big)
                   (registered (entry_of big (VBigInt 1) 0 (Some "tab-local")))
                 = Some (entry_of big (VBigInt 1) 0 (Some "tab-local")))
    by reflexivity.
  split; [exact Hreg|].
  refine (acquireEntry_existing_unserialisable big localStorageAdapter
            {| overrideValue := VUndefined; init_originId := Some "tab-local";
               persistent := Some true |}
            (entry_of big (VBigInt 1) 0 (Some "tab-local"))
            (registered (entry_of big (VBigInt 1) 0 (Some "tab-local")))
            world0 _ Hreg _ eq_refl); discriminate.
Defined.

End Examples.

(** * Further code: the rest of the debounce utility *)

(** [ThrottleOptions]; [None] is an absent key, [Some None] a key that is
    present and holds [undefined] (the spread copies it, and [debounce]
    then applies its own default). *)
Record ThrottleOptions : Type := {
  t_leading : option (option bool);
  t_trailing : option (option bool);
}.

(** The options [throttle(func, wait, options)] hands to [debounce]:
    [{ trailing: true, leading: true, ...options, maxWait: wait }]. *)
Definition throttle_options (wait : Z) (options : ThrottleOptions) : DebounceOptions :=
  {| opt_leading := default (Some true) (t_leading options);
     opt_trailing := default (Some true) (t_trailing options);
     opt_maxWait := Some (Some wait) |}.

Section Bursts.
Context {W A Th R : Type} `{TimerHost W}.

(** A run of calls of one debounced function; before each call the host
    moves on (the clock advances, other code runs). *)
Fixpoint burst (func : option Th -> option A -> Eff W R) (wait : Z)
    (options : DebounceOptions) (calls : list ((W -> W) * option Th * A))
    (s : DebounceState A Th R * W) : DebounceState A Th R * W :=
  match calls with
  | [] => s
  | (host, this, args) :: rest =>
      burst func wait options rest
        (snd (debounced func wait options this args (fst s, host (snd s))))
  end.

(** The variables after the function was invoked at [time] and returned
    [r]. *)
Definition invoked (d : DebounceState A Th R) (time : Z) (r : R)
    : DebounceState A Th R :=
  {| lastArgs := None; lastThis := None; result := Some r; timerId := timerId d;
     lastCallTime := lastCallTime d; lastInvokeTime := time |}.

End Bursts.

Section DebounceCoverage.
Context {W A Th R : Type} `{TimerHost W}.

Ltac unfold_eff :=
  unfold var, assign in *;
  unfold bind, ret, gets, modify, on_snd, throw, try_catch, id in *.

(** A call of a trailing-only debounced function (no [leading], no
    [maxWait]) records the call and makes sure a timer is armed; the
    outcome does not depend on [func], which is not invoked. *)
Lemma debounced_defers (wait : Z) (options : DebounceOptions)
    (d : DebounceState A Th R) (w : W) (this : option Th) (args : A) :
  leading options = false ->
  maxing options = false ->
  exists d' w',
    (forall func, debounced func wait options this args (d, w)
                    = (Normal (result d), (d', w')))
    /\ lastArgs d' = Some args
    /\ lastThis d' = this
    /\ lastCallTime d' = Some (Date_now w)
    /\ is_Some (timerId d')
    /\ result d' = result d.
Proof.
  intros Hl Hm. unfold debounced, leadingEdge, startTimer. rewrite Hl, Hm.
  unfold_eff. cbn [fst snd].
  destruct (shouldInvoke wait options d (Date_now w));
    destruct (timerId d) as [t|] eqn:Ht;
    repeat (progress (cbn; rewrite ?Ht));
    try (destruct (setTimeout wait w) as [t' w'] eqn:Hs);
    eexists _, _; (split; [intros func; reflexivity|]); cbn; split_and!; eauto.
Qed.
(** The variables right after the pending call was taken for delivery at
    [time]. *)
Definition taken (d : DebounceState A Th R) (time : Z) : DebounceState A Th R :=
  set_lastInvokeTime time (set_lastThis None (set_lastArgs None (set_timerId None d))).

(** X1: however many calls a trailing-only debounced function receives,
    and whatever the host does in between, [func] is not invoked by the
    calls (their outcome is the same for every [func]); the last call's
    arguments and [this] are the ones recorded, with a timer armed.  When
    the timer callback then finds the wait elapsed, it invokes [func]
    exactly once, with those arguments. *)
Theorem burst_coalesces (wait : Z) (options : DebounceOptions)
    (calls : list ((W -> W) * option Th * A)) (host : W -> W)
    (this : option Th) (args : A) (d : DebounceState A Th R) (w : W) :
  leading options = false ->
  maxing options = false ->
  trailing options = true ->
  exists d' w',
    (forall func,
        burst func wait options (calls ++ [(host, this, args)]) (d, w) = (d', w'))
    /\ lastArgs d' = Some args
    /\ lastThis d' = this
    /\ is_Some (timerId d')
    /\ (forall func w2,
          shouldInvoke wait options d' (Date_now w2) = true ->
          timerExpired func wait options (d', w2)
            = match func this (Some args) w2 with
              | (Normal r, w3) =>
                  (Normal tt, (set_result (Some r) (taken d' (Date_now w2)), w3))
              | (Throw e, w3) => (Throw e, (taken d' (Date_now w2), w3))
              end).
Proof.
  intros Hl Hm Ht. revert d w.
  induction calls as [|[[host0 this0] args0] rest IH]; intros d w.
  - destruct (debounced_defers wait options d (host w) this args Hl Hm)
      as (d' & w' & Hrun & Hargs & Hthis & _ & Htimer & _).
    exists d', w'. split_and!; try done.
    + intros func. simpl. by rewrite Hrun.
    + intros func w2 Hdue. unfold timerExpired, trailingEdge, invokeFunc, taken.
      unfold_eff. cbn [fst snd]. rewrite Hdue, Ht. cbn [fst snd lastArgs set_timerId].
      rewrite Hargs. cbn. rewrite Hargs, Hthis.
      by destruct (func this (Some args) w2) as [[r|e] w3].
  - destruct (debounced_defers wait options d (host0 w) this0 args0 Hl Hm)
      as (d1 & w1 & Hrun & _).
    destruct (IH d1 w1) as (d' & w' & Hburst & Hrest).
    exists d', w'. split; [|exact Hrest].
    intros func. simpl. rewrite Hrun. apply Hburst.
Qed.

(** X2: when the timer callback runs before the wait has elapsed
    ([shouldInvoke] is false), it does not invoke [func]: it re-arms the
    timer, with a delay that is positive and at most [wait]. *)
Theorem timerExpired_rearms (wait : Z) (options : DebounceOptions)
    (d : DebounceState A Th R) (w : W) :
  shouldInvoke wait options d (Date_now w) = false ->
  0 < remainingWait wait options d (Date_now w) <= wait
  /\ forall func,
       timerExpired func wait options (d, w)
         = startTimer (remainingWait wait options d (Date_now w)) (d, w).
Proof.
  intros Hnot. split.
  - unfold shouldInvoke, remainingWait, maxing, maxWait in *.
    destruct (lastCallTime d) as [c|]; [|done]. simpl in *.
    apply orb_false_iff in Hnot as [Hnot Hmax].
    apply orb_false_iff in Hnot as [Hwait Hneg].
    apply Z.leb_gt in Hwait. apply Z.ltb_ge in Hneg.
    destruct (opt_maxWait options) as [m|]; simpl in *; [|lia].
    apply Z.leb_gt in Hmax. lia.
  - intros func. unfold timerExpired. unfold_eff. cbn [fst snd]. by rewrite Hnot.
Qed.

(** X3: [cancel] drops the pending call: afterwards neither [flush] nor
    a late timer callback invokes [func]; both leave the variables and
    the host as they are, and [flush] returns the last result. *)
Theorem cancel_discards (wait : Z) (options : DebounceOptions)
    (d : DebounceState A Th R) (w : W) :
  exists d' w',
    cancel (d, w) = (Normal tt, (d', w'))
    /\ lastArgs d' = None /\ timerId d' = None /\ lastCallTime d' = None
    /\ (forall func, flush func options (d', w') = (Normal (result d), (d', w')))
    /\ (forall func w2, timerExpired func wait options (d', w2) = (Normal tt, (d', w2))).
Proof.
  unfold cancel. unfold_eff. cbn [fst snd].
  destruct (timerId d) as [t|]; cbn; eexists _, _;
    (split; [reflexivity|]); split_and!; try done.
  all: try (intros func; unfold flush; unfold_eff; reflexivity).
  all: intros func w2; unfold timerExpired, trailingEdge, shouldInvoke; unfold_eff; cbn;
    rewrite andb_false_r; reflexivity.
Qed.

Lemma flush_no_timer (func : option Th -> option A -> Eff W R)
    (options : DebounceOptions) (d : DebounceState A Th R) (w : W) :
  timerId d = None ->
  flush func options (d, w) = (Normal (result d), (d, w)).
Proof. intros Ht. unfold flush. unfold_eff. cbn [fst snd]. by rewrite Ht. Qed.

Lemma flush_clears_timer (func : option Th -> option A -> Eff W R)
    (options : DebounceOptions) (d : DebounceState A Th R) (w : W) :
  timerId (fst (snd (flush func options (d, w)))) = None.
Proof.
  unfold flush, trailingEdge, invokeFunc. unfold_eff. cbn [fst snd].
  destruct (timerId d) as [t|] eqn:Ht; cbn [fst snd]; [|done].
  destruct (trailing options); destruct (lastArgs d) as [a|] eqn:Ha;
    repeat (progress (cbn; rewrite ?Ha)); try done.
  destruct (func (lastThis d) (Some a) w) as [[r|e] w3]; reflexivity.
Qed.

(** X4: [flush] delivers a pending call at most once: a second [flush]
    right after the first, whether the first returned or threw, invokes
    nothing and changes nothing. *)
Theorem flush_at_most_once (func : option Th -> option A -> Eff W R)
    (options : DebounceOptions) (d : DebounceState A Th R) (w : W) :
  let s1 := snd (flush func options (d, w)) in
  flush func options s1 = (Normal (result (fst s1)), s1).
Proof.
  cbv zeta. pose proof (flush_clears_timer func options d w) as Hclear.
  destruct (snd (flush func options (d, w))) as [d1 w1].
  by apply flush_no_timer.
Qed.

(** X5: the first call of a throttled function (with [leading] left to
    its default) arms the timer and invokes [func] at once, with the
    call's arguments. *)
Theorem throttle_first_call_invokes (func : option Th -> option A -> Eff W R)
    (wait : Z) (options : ThrottleOptions) (w : W) (this : option Th) (args : A) :
  t_leading options = None ->
  debounced func wait (throttle_options wait options) this args (debounce, w)
    = match func this (Some args) (snd (setTimeout wait w)) with
      | (Normal r, w') =>
          (Normal (Some r),
           ({| lastArgs := None; lastThis := None; result := Some r;
               timerId := Some (fst (setTimeout wait w));
               lastCallTime := Some (Date_now w); lastInvokeTime := Date_now w |}, w'))
      | (Throw e, w') =>
          (Throw e,
           ({| lastArgs := None; lastThis := None; result := None;
               timerId := Some (fst (setTimeout wait w));
               lastCallTime := Some (Date_now w); lastInvokeTime := Date_now w |}, w'))
      end.
Proof.
  intros Hl. unfold debounced, leadingEdge, startTimer, invokeFunc, leading,
    throttle_options, shouldInvoke. rewrite Hl.
  unfold_eff. cbn. destruct (setTimeout wait w) as [t w1]. cbn.
  by destruct (func this (Some args) w1) as [[r|e] w'].
Qed.

(** X6: a throttled function with a timer pending invokes [func] at
    once when the call comes [wait] or more after the last invocation, and
    only records the call when it comes sooner (and less than [wait] after
    the previous call). *)
Theorem throttle_window (wait : Z) (options : ThrottleOptions)
    (d : DebounceState A Th R) (w : W) (this : option Th) (args : A)
    (t : nat) (c : Z) :
  timerId d = Some t ->
  lastCallTime d = Some c ->
  0 <= Date_now w - c < wait ->
  (Date_now w - lastInvokeTime d < wait ->
     forall func,
       debounced func wait (throttle_options wait options) this args (d, w)
         = (Normal (result d),
            (set_lastCallTime (Some (Date_now w))
               (set_lastThis this (set_lastArgs (Some args) d)), w)))
  /\ (wait <= Date_now w - lastInvokeTime d ->
     forall func,
       debounced func wait (throttle_options wait options) this args (d, w)
         = (startTimer wait ;; let! r := invokeFunc func (Date_now w) in ret (Some r))%eff
             (set_lastCallTime (Some (Date_now w))
                (set_lastThis this (set_lastArgs (Some args) d)), w)).
Proof.
  intros Ht Hc Hrecent.
  assert (Hmax : Z.max wait wait = wait) by lia.
  split; intros Hinv func; unfold debounced, shouldInvoke, maxing, maxWait, throttle_options;
    unfold_eff; cbn [fst snd opt_maxWait default]; rewrite Hc, Hmax; cbn [default].
  - replace (wait <=? Date_now w - c) with false by (symmetry; apply Z.leb_gt; lia).
    replace (Date_now w - c <? 0) with false by (symmetry; apply Z.ltb_ge; lia).
    replace (wait <=? Date_now w - lastInvokeTime d) with false
      by (symmetry; apply Z.leb_gt; lia).
    repeat (progress (cbn; rewrite ?Ht)). reflexivity.
  - replace (wait <=? Date_now w - lastInvokeTime d) with true
      by (symmetry; apply Z.leb_le; lia).
    rewrite !orb_true_r. repeat (progress (cbn; rewrite ?Ht)). reflexivity.
Qed.


End DebounceCoverage.

(** * Further properties of an entry *)

(** The events that neither deliver nor wire anything: a value is set, or
    the clock moves. *)
Definition quiet (ev : Event) : bool :=
  match ev with
  | SetValue _ | ClockShows _ => true
  | _ => false
  end.

Section EntryCoverage.
Context `{Platform}.

Ltac unfold_eff :=
  unfold this, update, var, assign in *;
  unfold bind, ret, gets, modify, on_snd, throw, try_catch, id in *.

Lemma writes_version (e e' : Entry) : writes e e' -> e_version e <= e_version e'.
Proof. intros []; [lia | apply bump_version_ge]. Qed.

Lemma with_debouncedWrite_version {X} (m : Eff (DebounceState unit unit unit * ES) X) :
  (forall d e w, exists x d' e' w',
      m (d, (e, w)) = (Normal x, (d', (e', w'))) /\ writes e e') ->
  forall e w, e_version e <= e_version (fst (snd (with_debouncedWrite m (e, w)))).
Proof.
  intros Hm e w. destruct (e_debouncedWrite e) as [d|] eqn:He.
  - destruct (Hm d e w) as (x & d' & e' & w' & Hrun & Hwr).
    rewrite (with_debouncedWrite_some m e e' w w' d d' x He Hrun).
    apply (writes_version _ _ Hwr).
  - by rewrite (with_debouncedWrite_none m e w He).
Qed.

Lemma cleanupPersistence_version (e : Entry) (w : World) :
  e_version e <= e_version (fst (snd (cleanupPersistence (e, w)))).
Proof.
  destruct (pending_write e) eqn:Hp.
  - destruct (writeToStorage_total e w) as [w' Hw].
    rewrite (cleanupPersistence_pending e w w' Hp Hw).
    exact (bump_version_ge e).
  - by rewrite (cleanupPersistence_idle e w Hp).
Qed.

Lemma step_version (ev : Event) (e : Entry) (w : World) :
  e_version e <= e_version (fst (snd (step ev (e, w)))).
Proof.
  destruct ev; simpl.
  - unfold mount. unfold_eff. cbn [fst snd e_refCount set_e_refCount].
    destruct (e_refCount e + 1 =? 1); [|done].
    unfold setupPersistence, bind at 1, update, modify. cbn [fst snd].
    destruct (persistence_effect_frame (set_e_debouncedWrite (Some debounce)
                (set_e_refCount (e_refCount e + 1) e)) w)
      as (e' & w' & Hpe & _ & _ & Hv & _).
    unfold bind. rewrite Hpe. simpl. simpl in Hv. lia.
  - unfold unmount. unfold_eff. cbn [fst snd e_refCount set_e_refCount].
    destruct (e_refCount e - 1 =? 0); [|done].
    apply (cleanupPersistence_version (set_e_refCount (e_refCount e - 1) e) w).
  - destruct (signal_set_frame v e w) as (e' & w' & -> & _ & _ & Hv & _). simpl. lia.
  - destruct (syncWith_frame remoteState e w) as (e' & w' & -> & _ & _ & Hyes & Hno).
    simpl. destruct (accepts e remoteState) eqn:Hacc.
    + destruct (Hyes eq_refl) as [_ ->].
      apply accepts_iff in Hacc as [? | [? _]]; lia.
    + by destruct (Hno eq_refl) as [-> _].
  - unfold entry_flush, bind.
    pose proof (with_debouncedWrite_version _ flush_writes e w) as Hv.
    by destruct (with_debouncedWrite _ (e, w)) as [[x|err] [e' w']].
  - unfold timer_fires, bind, on_snd, modify. cbn [fst snd].
    pose proof (with_debouncedWrite_version
                  (timerExpired write_func write_wait write_options)
                  (fun d e w => ex_intro _ tt (timerExpired_writes d e w))
                  e (world_clearTimeout id w)) as Hv.
    by destruct (with_debouncedWrite _ (e, world_clearTimeout id w)) as [[x|err] [e' w']].
  - done.
Qed.

(** X7: whatever happens to an entry (mounts, unmounts, local changes,
    merges, flushes, timers), its version never decreases. *)
Theorem version_never_decreases (trace : list Event) (e : Entry) (w : World) :
  e_version e <= e_version (fst (run_trace trace (e, w))).
Proof.
  revert e w. induction trace as [|ev rest IH]; intros e w; [done|].
  cbn [run_trace]. pose proof (step_version ev e w) as Hstep.
  destruct (snd (step ev (e, w))) as [e' w']. specialize (IH e' w'). simpl in *. lia.
Qed.
(** The entry right after its first mount: count 1, effect live, and a
    writer that has recorded the effect's first run. *)
Definition first_mounted (e : Entry) (w : World) : Entry :=
  set_e_disposeEffect true
    (set_e_debouncedWrite
       (Some {| lastArgs := Some tt; lastThis := Some tt; result := None;
                timerId := Some (nextTimer w); lastCallTime := Some (clock w);
                lastInvokeTime := clock w |})
       (set_e_refCount 1 e)).

(** X8: the first mount of an entry schedules a write although no value
    changed (the effect runs once when it is created): a timer of 100 ms is
    armed, and when it fires after the wait, [writeToStorage] runs on the
    mounted entry and leaves the version as [++] makes it: one more while
    the version is an integer from [-2^53] to below [2^53], and never
    lower. *)
Theorem mount_schedules_write (e : Entry) (w : World) :
  e_refCount e = 0 ->
  mount (e, w) = (Normal tt, (first_mounted e w, snd (world_setTimeout write_wait w)))
  /\ pending_write (first_mounted e w) = true
  /\ (forall w2, clock w + write_wait <= clock w2 ->
       exists w3,
         writeToStorage (first_mounted e w, world_clearTimeout (nextTimer w) w2)
           = (Normal tt, (bump 1 (first_mounted e w), w3))
         /\ timer_fires (nextTimer w) (first_mounted e w, w2)
            = (Normal tt,
               (set_e_debouncedWrite
                  (Some (delivered {| lastArgs := Some tt; lastThis := Some tt;
                                      result := None; timerId := Some (nextTimer w);
                                      lastCallTime := Some (clock w);
                                      lastInvokeTime := clock w |} (clock w2)))
                  (bump 1 (first_mounted e w)), w3)))
  /\ e_version (bump 1 (first_mounted e w)) = increment (e_version e)
  /\ e_version e <= e_version (bump 1 (first_mounted e w))
  /\ (- 2 ^ 53 <= e_version e < 2 ^ 53 ->
      e_version (bump 1 (first_mounted e w)) = e_version e + 1).
Proof.
  intros Hzero. split_and!;
    [ | | | reflexivity | exact (bump_version_ge (first_mounted e w))
      | intros Hsafe; exact (bump_version_safe (first_mounted e w) Hsafe) ].
  - unfold mount, setupPersistence, persistence_effect, with_debouncedWrite,
      debounced, leadingEdge, startTimer, first_mounted.
    unfold_eff. cbn. rewrite Hzero. reflexivity.
  - reflexivity.
  - intros w2 Hlate.
    destruct (writeToStorage_total (first_mounted e w)
                (world_clearTimeout (nextTimer w) w2)) as [w3 Hw].
    exists w3. split; [exact Hw|].
    unfold timer_fires, bind at 1, on_snd, modify. cbn [fst snd].
    unfold bind.
    erewrite with_debouncedWrite_some; [reflexivity | reflexivity |].
    unfold timerExpired. unfold_eff. cbn [fst snd Date_now ES_TimerHost].
    replace (shouldInvoke write_wait write_options _ _) with true.
    + cbn [world_clearTimeout clock].
      rewrite (trailingEdge_pending _ (first_mounted e w) _ w3 (clock w2));
        [reflexivity | by eexists | exact Hw].
    + assert (Hle : (write_wait <=? clock w2 - clock w) = true) by (apply Z.leb_le; lia).
      symmetry. unfold shouldInvoke. cbn. by rewrite Hle.
Qed.

Lemma signal_set_world (v : jsval) (e : Entry) (w : World) :
  exists e' w',
    signal_set v (e, w) = (Normal tt, (e', w'))
    /\ e_version e' = e_version e
    /\ store w' = store w /\ console w' = console w /\ clock w' = clock w.
Proof.
  destruct (strict_equal v (e_signal e)) eqn:Heq.
  - rewrite (signal_set_same v e w Heq). by eexists _, _.
  - rewrite (signal_set_changed v e w Heq). destruct (e_disposeEffect e).
    + destruct (e_debouncedWrite e) as [d|] eqn:Hd.
      * destruct (persistence_effect_mounted d (set_e_signal v e) w Hd)
          as (d' & w' & -> & _ & _ & _ & ->).
        eexists _, _. split; [reflexivity|]. by destruct (timerId d).
      * rewrite (persistence_effect_unmounted (set_e_signal v e) w Hd). by eexists _, _.
    + by eexists _, _.
Qed.

(** X9: local changes never write at once: over any run of value changes
    and clock moves, mounted or not, the version, the stores and the
    console stay as they were (the changes only record calls and arm
    timers). *)
Theorem value_changes_defer_write (trace : list Event) (e : Entry) (w : World) :
  forallb quiet trace = true ->
  let s := run_trace trace (e, w) in
  e_version (fst s) = e_version e
  /\ store (snd s) = store w
  /\ console (snd s) = console w.
Proof.
  cbv zeta. revert e w. induction trace as [|ev rest IH]; intros e w Hq; [done|].
  simpl in Hq. apply andb_true_iff in Hq as [Hev Hrest].
  cbn [run_trace]. destruct ev; try discriminate; simpl.
  - destruct (signal_set_world v e w) as (e' & w' & -> & Hv & Hs & Hc & _).
    cbn [snd]. destruct (IH e' w' Hrest) as (-> & -> & ->). done.
  - unfold on_snd, modify. cbn [fst snd]. apply (IH e (set_clock t w) Hrest).
Qed.

(** X10: [[Symbol.dispose]] removes the writer and the effect but leaves
    the reference count alone, so a later mount of an entry that was in
    use (count at least 1) finds a count other than 1 and wires nothing:
    the entry stays without writer and effect, and setting its value then
    reaches neither a timer nor the stores. *)
Theorem dispose_then_mount_stays_off (e : Entry) (w : World) :
  1 <= e_refCount e ->
  let s := snd (mount (snd (dispose (e, w)))) in
  e_refCount (fst s) = e_refCount e + 1
  /\ e_debouncedWrite (fst s) = None
  /\ e_disposeEffect (fst s) = false
  /\ forall v, snd (snd (signal_set v s)) = snd s.
Proof.
  intros Hused. cbv zeta. unfold dispose.
  destruct (cleanupPersistence_frame e w) as (e1 & w1 & -> & Hrc).
  unfold mount. unfold_eff. cbn [fst snd e_refCount set_e_refCount torn_down
    set_e_debouncedWrite set_e_disposeEffect].
  destruct (Z.eqb_spec (e_refCount e1 + 1) 1) as [? | _]; [lia|].
  cbn [fst snd]. split_and!; try done; [simpl; lia|].
  intros v. match goal with |- snd (snd (signal_set v (?e', ?w'))) = _ =>
    destruct (strict_equal v (e_signal e')) eqn:Heq;
    [rewrite (signal_set_same v e' w' Heq) | rewrite (signal_set_changed v e' w' Heq)]
  end; reflexivity.
Qed.

(** X11: an entry's [flush()] delivers at most once: a second [flush()]
    right after the first leaves the entry and the host exactly as the
    first left them. *)
Theorem entry_flush_at_most_once (e : Entry) (w : World) :
  let s1 := snd (entry_flush (e, w)) in
  entry_flush s1 = (Normal tt, s1).
Proof.
  cbv zeta. unfold entry_flush, bind.
  destruct (e_debouncedWrite e) as [d|] eqn:He.
  - destruct (flush_writes d e w) as (x & d' & e' & w' & Hrun & _).
    pose proof (flush_clears_timer write_func write_options d (e, w)) as Hclear.
    rewrite Hrun in Hclear. cbn [fst snd] in Hclear.
    rewrite (with_debouncedWrite_some _ e e' w w' d d' x He Hrun).
    unfold ret. cbn [fst snd].
    rewrite (with_debouncedWrite_some _ (set_e_debouncedWrite (Some d') e')
               (set_e_debouncedWrite (Some d') e') w' w' d' d' (result d') eq_refl
               (flush_no_timer write_func write_options d'
                  (set_e_debouncedWrite (Some d') e', w') Hclear)).
    reflexivity.
  - rewrite (with_debouncedWrite_none _ e w He). unfold ret. cbn [fst snd].
    by rewrite (with_debouncedWrite_none _ e w He).
Qed.

(** X12: a constructor call without override and with [persistent] set,
    on a stored text that parses to something other than [null] and whose
    [version] is a number or one of the falsy values [undefined] (absent),
    [null], [false] and the empty string: the entry takes the value from
    the parsed record and reads the default value nowhere (a record without
    a [value] property makes it start at [undefined]); its version is the
    stored number, and 0 for a falsy one. *)
Theorem constructor_restores (config : AtomConfig) (storage : StorageAdapter)
    (options : AtomRegistryEntryOptions) (w w' : World) (text : string)
    (parsed : jsval) (n : Z) :
  overrideValue options = VUndefined ->
  persistent options = Some true ->
  getItem storage (key config) w = (Normal (Some text), w') ->
  JSON_parse text = Some parsed ->
  parsed <> VNull -> parsed <> VUndefined ->
  prop_of parsed "version" = VNum n
  \/ (In (prop_of parsed "version") [VUndefined; VNull; VBool false; VStr ""]
      /\ n = 0) ->
  new_AtomRegistryEntry config storage options w
    = (Normal (constructed config storage options (prop_of parsed "value") n), w').
Proof.
  intros Hov Hp Hget Hparse Hnull Hundef Hver.
  assert (Hn : version_or_zero (prop_of parsed "version") = n).
  { destruct Hver as [-> | [Hfalsy ->]]; [reflexivity|].
    simpl in Hfalsy. by destruct Hfalsy as [<- | [<- | [<- | [<- | []]]]]. }
  unfold new_AtomRegistryEntry, host_call, is_true. rewrite Hov, Hp.
  unfold_eff. cbn. rewrite Hget, Hparse. cbn.
  destruct parsed; try done; cbn in *; by rewrite Hn.
Qed.

(** X13: the write path and the constructor round-trip: when an entry's
    write goes through, the adapter hands the written text back, and
    [JSON.parse] reads from it the value and the version that were
    serialised, a new entry constructed on the same key (no override,
    [persistent] set) starts with the written value and the written
    version, which is the old version after [++]. *)
Theorem write_then_construct (e : Entry) (options : AtomRegistryEntryOptions)
    (w w1 w2 : World) (text : string) (parsed : jsval) :
  JSON_stringify (persisted_record (bump 1 e)) = Some (Some text) ->
  setItem (e_storage e) (key (e_config e)) text w = (Normal tt, w1) ->
  getItem (e_storage e) (key (e_config e)) w1 = (Normal (Some text), w2) ->
  JSON_parse text = Some parsed ->
  parsed <> VNull -> parsed <> VUndefined ->
  prop_of parsed "value" = e_signal e ->
  prop_of parsed "version" = VNum (increment (e_version e)) ->
  overrideValue options = VUndefined ->
  persistent options = Some true ->
  writeToStorage (e, w) = (Normal tt, (bump 1 e, w1))
  /\ new_AtomRegistryEntry (e_config e) (e_storage e) options w1
     = (Normal (constructed (e_config e) (e_storage e) options
                  (e_signal e) (increment (e_version e))), w2).
Proof.
  intros Hs Hset Hget Hparse Hnull Hundef Hval Hver Hov Hp. split.
  - by apply writeToStorage_success with text.
  - unfold new_AtomRegistryEntry, host_call, is_true. rewrite Hov, Hp.
    unfold_eff. cbn. rewrite Hget, Hparse. cbn.
    destruct parsed; try done; cbn in *; try discriminate.
    by rewrite Hval, Hver.
Qed.

(** X14: a constructor call without override and with [persistent] set
    never throws: when the adapter's [getItem] throws, or the stored text
    does not parse, or it parses to [null], the error is logged and the
    entry starts at the default value with version 0; when nothing is
    stored it starts there without a log. *)
Theorem constructor_falls_back (config : AtomConfig) (storage : StorageAdapter)
    (options : AtomRegistryEntryOptions) (w : World) :
  overrideValue options = VUndefined ->
  persistent options = Some true ->
  (exists err w', getItem storage (key config) w = (Throw err, w'))
  \/ (exists text w', getItem storage (key config) w = (Normal (Some text), w')
        /\ (JSON_parse text = None \/ JSON_parse text = Some VNull))
  \/ (exists w', getItem storage (key config) w = (Normal None, w')) ->
  exists w'',
    new_AtomRegistryEntry config storage options w
      = (Normal (constructed config storage options (defaultValue config) 0), w'')
    /\ store w'' = store (snd (getItem storage (key config) w))
    /\ (forall w', getItem storage (key config) w = (Normal None, w') -> w'' = w').
Proof.
  intros Hov Hp Hcase.
  unfold new_AtomRegistryEntry, host_call, is_true, console_log. rewrite Hov, Hp.
  unfold_eff. cbn.
  destruct Hcase as [(err & w' & Hget) | [(text & w' & Hget & Hbad) | (w' & Hget)]];
    rewrite Hget; cbn.
  - eexists. split; [reflexivity|]. split; [done|]. intros ? [=].
  - destruct Hbad as [Hbad | Hbad]; rewrite Hbad; cbn;
      (eexists; split; [reflexivity|]; split; [done|]; intros ? [=]).
  - eexists. split; [reflexivity|]. split; [done|]. by intros ? [= <-].
Qed.


End EntryCoverage.

(** * Further properties of the registry and of the handler *)

Section RegistryCoverage.
Context `{Platform}.

Ltac unfold_eff :=
  unfold this, update, var, assign in *;
  unfold bind, ret, gets, modify, on_snd, throw, try_catch, id in *.

Lemma getAtomEntryFrom_registry_set (storage storage' : StorageAdapter)
    (k k' : string) (e : Entry) (regs : Registries) :
  getAtomEntryFrom storage' k' (registry_set storage k e regs)
    = if decide (adapter_id storage' = adapter_id storage /\ k' = k) then Some e
      else getAtomEntryFrom storage' k' regs.
Proof.
  unfold getAtomEntryFrom, registry_set.
  destruct (decide (adapter_id storage' = adapter_id storage)) as [Hid | Hid].
  - rewrite Hid, lookup_insert_eq.
    destruct (decide (k' = k)) as [-> | Hk].
    + rewrite lookup_insert_eq. by rewrite decide_True.
    + rewrite lookup_insert_ne by done. rewrite decide_False by tauto.
      by destruct (regs !! adapter_id storage).
  - rewrite lookup_insert_ne by done. by rewrite decide_False by tauto.
Qed.

(** The first acquisition of a key: the entry is the constructor's, it
    carries the configuration it was acquired with, and it is filed. *)
Lemma acquireEntry_registers_aux (atomConfig : AtomConfig) (storage : StorageAdapter)
    (options : AtomRegistryEntryOptions) (regs : Registries) (w : World) :
  key atomConfig <> "" ->
  getAtomEntryFrom storage (key atomConfig) regs = None ->
  exists e regs' w',
    acquireEntry atomConfig storage options (regs, w) = (Normal e, (regs', w'))
    /\ e_config e = atomConfig
    /\ getAtomEntryFrom storage (key atomConfig) regs' = Some e
    /\ new_AtomRegistryEntry atomConfig storage options w = (Normal e, w').
Proof.
  intros Hkey Hfree.
  destruct (new_AtomRegistryEntry_constructed atomConfig storage options w)
    as (v & n & w' & Hnew).
  unfold acquireEntry, getRegistryForStorage, truthy_string. unfold_eff.
  destruct (String.eqb_spec (key atomConfig) "") as [? | _]; [done|].
  cbn [negb fst snd].
  assert (Hfree0 : forall regs0,
             regs0 = match regs !! adapter_id storage with
                     | Some _ => regs
                     | None => <[adapter_id storage := ∅]> regs
                     end ->
             getAtomEntryFrom storage (key atomConfig) regs0 = None).
  { intros regs0 ->. unfold getAtomEntryFrom in *.
    destruct (regs !! adapter_id storage) eqn:Hr; [by rewrite Hr|].
    by rewrite lookup_insert_eq. }
  destruct (regs !! adapter_id storage) eqn:Hr; cbn [fst snd];
    rewrite (Hfree0 _ eq_refl); cbn [fst snd]; rewrite Hnew; cbn [fst snd];
    eexists _, _, _; (split; [reflexivity|]); (split; [reflexivity|]);
    (split; [|done]);
    rewrite getAtomEntryFrom_registry_set; by rewrite decide_True.
Qed.

(** X15: acquiring a key that is not registered constructs an entry,
    files it, and returns it: looking the key up afterwards gives that
    entry, and every other key, under this or any other adapter, is found
    (or not found) as before. *)
Theorem acquireEntry_registers (atomConfig : AtomConfig) (storage : StorageAdapter)
    (options : AtomRegistryEntryOptions) (regs : Registries) (w : World) :
  key atomConfig <> "" ->
  getAtomEntryFrom storage (key atomConfig) regs = None ->
  exists e regs' w',
    acquireEntry atomConfig storage options (regs, w) = (Normal e, (regs', w'))
    /\ new_AtomRegistryEntry atomConfig storage options w = (Normal e, w')
    /\ getAtomEntryFrom storage (key atomConfig) regs' = Some e
    /\ forall storage' k',
         ~ (adapter_id storage' = adapter_id storage /\ k' = key atomConfig) ->
         getAtomEntryFrom storage' k' regs' = getAtomEntryFrom storage' k' regs.
Proof.
  intros Hkey Hfree.
  destruct (new_AtomRegistryEntry_constructed atomConfig storage options w)
    as (v & n & w' & Hnew).
  set (regs0 := match regs !! adapter_id storage with
                | Some _ => regs
                | None => <[adapter_id storage := ∅]> regs
                end).
  assert (Hsame : forall storage' k',
             getAtomEntryFrom storage' k' regs0 = getAtomEntryFrom storage' k' regs).
  { intros storage' k'. unfold regs0, getAtomEntryFrom.
    destruct (regs !! adapter_id storage) eqn:Hr; [done|].
    destruct (decide (adapter_id storage' = adapter_id storage)) as [Hid | Hid].
    - by rewrite Hid, lookup_insert_eq, Hr.
    - by rewrite lookup_insert_ne. }
  exists (constructed atomConfig storage options v n),
         (registry_set storage (key atomConfig)
            (constructed atomConfig storage options v n) regs0), w'.
  split_and!.
  - unfold acquireEntry, getRegistryForStorage, truthy_string. unfold_eff.
    destruct (String.eqb_spec (key atomConfig) "") as [? | _]; [done|].
    cbn [negb fst snd]. fold regs0.
    assert (Hfree0 : getAtomEntryFrom storage (key atomConfig) regs0 = None)
      by (by rewrite Hsame).
    destruct (regs !! adapter_id storage) eqn:Hr; cbn [fst snd];
      unfold regs0 in *; rewrite ?Hr in *; rewrite Hfree0; cbn [fst snd];
      rewrite Hnew; reflexivity.
  - exact Hnew.
  - rewrite getAtomEntryFrom_registry_set. by rewrite decide_True.
  - intros storage' k' Hother.
    rewrite getAtomEntryFrom_registry_set. rewrite decide_False by done. apply Hsame.
Qed.

(** X16: get-or-create: after a key was acquired for the first time, a
    second acquisition of the same key (with any options and any default
    value that [JSON.stringify] accepts, or in a production build) returns
    the very entry the first call returned and leaves the registries as
    the first call left them. *)
Theorem acquireEntry_get_or_create (atomConfig atomConfig' : AtomConfig)
    (storage : StorageAdapter) (options options' : AtomRegistryEntryOptions)
    (regs : Registries) (w : World) :
  key atomConfig <> "" ->
  key atomConfig' = key atomConfig ->
  getAtomEntryFrom storage (key atomConfig) regs = None ->
  NODE_ENV = "production"
    \/ (JSON_stringify (defaultValue atomConfig) <> None
        /\ JSON_stringify (defaultValue atomConfig') <> None) ->
  exists e regs1 w1 w2,
    acquireEntry atomConfig storage options (regs, w) = (Normal e, (regs1, w1))
    /\ acquireEntry atomConfig' storage options' (regs1, w1) = (Normal e, (regs1, w2)).
Proof.
  intros Hkey Hsame Hfree Hok.
  destruct (acquireEntry_registers_aux atomConfig storage options regs w Hkey Hfree)
    as (e & regs1 & w1 & Hfirst & Hcfg & Hfound & _).
  rewrite <- Hsame in Hfound, Hkey.
  destruct (acquireEntry_existing atomConfig' storage e regs1 w1 Hkey Hfound)
    as [w2 Hsecond].
  { rewrite Hcfg. exact Hok. }
  exists e, regs1, w1, w2. split; [exact Hfirst | apply Hsecond].
Qed.
(** A well-formed record from another tab reaches the merge of the
    entry registered under the event's key. *)
Lemma handleStorageChange_valid (k text origin : string) (v : jsval) (n : Z)
    (fields : list (string * jsval)) (entry : Entry) (regs : Registries) (w : World) :
  k <> "" ->
  getAtomEntryFrom localStorageAdapter k regs = Some entry ->
  JSON_parse text = Some (VObj fields) ->
  assoc "value" fields = v -> v <> VUndefined ->
  assoc "version" fields = VNum n ->
  assoc "originId" fields = VStr origin ->
  origin <> localTabId ->
  handleStorageChange {| ev_key := Some k; ev_newValue := Some text |} (regs, w)
    = on_entry localStorageAdapter k entry
        (syncWith {| value := v; version := n; originId := origin |}) (regs, w).
Proof.
  intros Hk Hreg Hparse Hv Hdef Hn Ho Hother.
  unfold handleStorageChange, handleStorageChange_with, host_call, get_prop, truthy_string.
  unfold_eff. cbn [ev_key ev_newValue].
  destruct (String.eqb_spec k "") as [? | _]; [done|].
  cbn [negb fst snd]. rewrite Hreg, Hparse. cbn [fst snd]. rewrite Hv, Hn, Ho.
  destruct (String.eqb_spec origin localTabId) as [? | _]; [done|].
  by destruct v.
Qed.

(** X17: a storage event for a registered key that carries a well-formed
    record from another tab is merged into that entry: the registry then
    holds, under the event's key, the entry [syncWith] leaves, and when the
    record's version is newer than the entry's, that entry has the
    record's value and version. *)
Theorem handleStorageChange_applies (k text origin : string) (v : jsval) (n : Z)
    (fields : list (string * jsval)) (entry : Entry) (regs : Registries) (w : World) :
  k <> "" ->
  getAtomEntryFrom localStorageAdapter k regs = Some entry ->
  JSON_parse text = Some (VObj fields) ->
  assoc "value" fields = v -> v <> VUndefined ->
  assoc "version" fields = VNum n ->
  assoc "originId" fields = VStr origin ->
  origin <> localTabId ->
  exists e' regs' w',
    handleStorageChange {| ev_key := Some k; ev_newValue := Some text |} (regs, w)
      = (Normal tt, (regs', w'))
    /\ syncWith {| value := v; version := n; originId := origin |} (entry, w)
       = (Normal tt, (e', w'))
    /\ getAtomEntryFrom localStorageAdapter k regs' = Some e'
    /\ (e_version entry < n -> e_signal e' = v /\ e_version e' = n).
Proof.
  intros Hk Hreg Hparse Hv Hdef Hn Ho Hother.
  rewrite (handleStorageChange_valid k text origin v n fields entry regs w) by done.
  destruct (syncWith_frame {| value := v; version := n; originId := origin |} entry w)
    as (e' & w' & Hrun & _ & _ & Hyes & _).
  exists e', (registry_set localStorageAdapter k e' regs), w'.
  unfold on_entry. cbn [fst snd]. rewrite Hrun. split_and!; try done.
  - rewrite getAtomEntryFrom_registry_set. by rewrite decide_True.
  - intros Hnewer. apply Hyes, accepts_iff. by left.
Qed.

(** The two shapes of the handler's outcome: the registries are as
    before, or the entry under the event's key was replaced by what
    [syncWith] made of it. *)
Lemma handleStorageChange_shape (event : StorageEvent) (regs : Registries) (w : World) :
  (exists c w', handleStorageChange event (regs, w) = (c, (regs, w'))
      /\ (c = Normal tt
          \/ exists text, ev_newValue event = Some text
               /\ (JSON_parse text = Some VNull \/ JSON_parse text = Some VUndefined)))
  \/ (exists k entry r e' w',
        ev_key event = Some k
        /\ getAtomEntryFrom localStorageAdapter k regs = Some entry
        /\ syncWith r (entry, w) = (Normal tt, (e', w'))
        /\ handleStorageChange event (regs, w)
           = (Normal tt, (registry_set localStorageAdapter k e' regs, w'))).
Proof.
  unfold handleStorageChange, handleStorageChange_with, invalid_structure, host_call,
    console_log, truthy_string.
  unfold_eff.
  destruct (ev_key event) as [k|]; [|left; eexists _, _; eauto].
  destruct (ev_newValue event) as [text|]; [|left; eexists _, _; eauto].
  destruct (String.eqb_spec k "") as [-> | Hk]; [left; eexists _, _; eauto|].
  cbn [negb fst snd].
  destruct (getAtomEntryFrom localStorageAdapter k regs) as [entry|] eqn:Hreg;
    [|left; eexists _, _; eauto].
  destruct (JSON_parse text) as [p|] eqn:Hparse; cbn [fst snd];
    [|left; eexists _, _; eauto].
  destruct p as [| |b|z|str|z|items|fields]; cbn [get_prop throw ret fst snd];
    try (left; eexists _, _; split; [reflexivity|]; right; eauto; fail);
    try (left; destruct (String.eqb NODE_ENV "development"); eexists _, _; eauto; fail).
  destruct (assoc "value" fields) eqn:Hv; destruct (assoc "version" fields) eqn:Hn;
    destruct (assoc "originId" fields) eqn:Ho;
    try (left; destruct (String.eqb NODE_ENV "development"); cbn [fst snd];
         eexists _, _; eauto; fail);
    (match goal with |- context [String.eqb ?o localTabId] =>
       destruct (String.eqb o localTabId)
     end; [left; eexists _, _; split; [reflexivity | by left]|]);
    right; unfold on_entry; cbn [fst snd];
    match goal with |- context [syncWith ?r (entry, w)] =>
      destruct (syncWith_frame r entry w) as (e' & w' & Hrun & _);
      exists k, entry, r, e', w'; rewrite Hrun; done
    end.
Qed.

(** X18: the handler throws in one case only: it returns normally for
    every event whose new value does not parse to [null]. *)
Theorem handleStorageChange_throws_only_on_null (event : StorageEvent)
    (regs : Registries) (w : World) :
  (forall text, ev_newValue event = Some text ->
     JSON_parse text <> Some VNull /\ JSON_parse text <> Some VUndefined) ->
  fst (handleStorageChange event (regs, w)) = Normal tt.
Proof.
  intros Hnot.
  destruct (handleStorageChange_shape event regs w)
    as [(c & w' & -> & [-> | (text & Hnew & Hbad)]) | (k & entry & r & e' & w' & _ & _ & _ & ->)];
    try done.
  destruct (Hnot text Hnew). by destruct Hbad.
Qed.

(** X19: keys are synchronised independently: whatever the event, an
    entry registered under another key, or under an adapter other than
    [localStorageAdapter], is found afterwards exactly as before. *)
Theorem handleStorageChange_other_entries (event : StorageEvent) (regs : Registries)
    (w : World) (storage : StorageAdapter) (k' : string) :
  adapter_id storage <> adapter_id localStorageAdapter \/ ev_key event <> Some k' ->
  getAtomEntryFrom storage k' (fst (snd (handleStorageChange event (regs, w))))
    = getAtomEntryFrom storage k' regs.
Proof.
  intros Hother.
  destruct (handleStorageChange_shape event regs w)
    as [(c & w' & -> & _) | (k & entry & r & e' & w' & Hkey & _ & _ & ->)];
    [done|].
  cbn [fst snd]. rewrite getAtomEntryFrom_registry_set.
  rewrite decide_False; [done|]. intros [Hid ->]. destruct Hother; congruence.
Qed.


End RegistryCoverage.

(** * Further code: the tab id and the React bindings *)

(** [generateTabId] ([src/core/sync.ts]).  The state is the property of
    [globalThis] under the symbol [persistent-signals/tab-id] ([None] when
    [globalThis] has no such property).  [has_globalThis] tells whether
    [globalThis] exists; [r1], [t] and [r2] are the texts the host's
    [Math.random] and [Date.now] calls would give this time. *)
Definition generateTabId (has_globalThis : bool) (r1 t r2 : string)
    : Eff (option string) string :=
  if has_globalThis then
    let! present := gets (fun slot : option string => bool_decide (is_Some slot)) in
    (if negb present then
       let tabId := r1 +:+ "-" +:+ t +:+ "-" +:+ r2 in
       modify (fun _ => Some tabId)
     else ret tt) ;;
    gets (default "")
  else ret "SERVER-TAB".

(** The atom key of [useExclusiveState]; [scopeId] is the text of the
    scope id (the template literal turns a number into its text). *)
Definition exclusive_key (scopeId localKey : string) : string :=
  "exclusive::" +:+ scopeId +:+ "::" +:+ localKey.

Fixpoint no_colon (s : string) : bool :=
  match s with
  | EmptyString => true
  | String c rest => negb (Ascii.eqb c (Ascii.ascii_of_nat 58)) && no_colon rest
  end.

Section Bindings.
Context `{Platform}.

(** What [useAtom] reads from the [SignalContext]: a field is [None] when
    the provider left it out. [initialState] lists the object's own
    properties; the properties it inherits from [Object.prototype] (a key
    such as [toString] reads a function there) are no values of this
    model, and such keys are outside it. *)
Record SignalContext : Type := {
  ctx_storage : option StorageAdapter;
  ctx_persistent : option bool;
  ctx_initialState : option (list (string * jsval));
}.

(** The render part of [useAtom]: the options the hook computes and its
    call of [acquireEntry].  (The hook's effect then calls [mount] on the
    entry and, as its cleanup, [unmount].) *)
Definition useAtom_options (context : SignalContext) (config : AtomConfig)
    : AtomRegistryEntryOptions :=
  {| overrideValue :=
       match ctx_initialState context with
       | Some initialState => assoc (key config) initialState
       | None => VUndefined
       end;
     init_originId := Some localTabId;
     persistent := Some (default true (ctx_persistent context)) |}.

Definition useAtom_acquire (context : SignalContext) (config : AtomConfig)
    : Eff App Entry :=
  acquireEntry config (default localStorageAdapter (ctx_storage context))
    (useAtom_options context config).

(** [useExclusiveState(localKey, scopeId, defaultValue)], up to the same
    point. *)
Definition useExclusiveState_acquire (context : SignalContext)
    (localKey scopeId : string) (defaultValue : jsval) : Eff App Entry :=
  useAtom_acquire context
    {| key := exclusive_key scopeId localKey; defaultValue := defaultValue |}.

End Bindings.

Section BindingsProperties.
Context `{Platform}.

Ltac unfold_eff :=
  unfold this, update, var, assign in *;
  unfold bind, ret, gets, modify, on_snd, throw, try_catch, id in *.

(** X20: the tab id is stable: once [generateTabId] has run, every later
    call, whatever the random draws and the clock, returns the same id and
    leaves the property as it is. *)
Theorem generateTabId_stable (r1 t r2 r1' t' r2' : string) (slot : option string) :
  let first := generateTabId true r1 t r2 slot in
  generateTabId true r1' t' r2' (snd first) = (fst first, snd first).
Proof.
  cbv zeta. unfold generateTabId. unfold_eff. by destruct slot.
Qed.

Lemma append_nonempty_r (a b : string) : b <> "" -> a +:+ b <> "".
Proof. destruct a; simpl; [done | discriminate]. Qed.

(** X21: on a page that has no tab id yet, and on a host without
    [globalThis], the id [generateTabId] returns is never the empty
    string, whatever the host's random texts are (even empty ones). *)
Theorem generateTabId_nonempty (has_globalThis : bool) (r1 t r2 : string) :
  exists id slot',
    generateTabId has_globalThis r1 t r2 None = (Normal id, slot')
    /\ id <> ""
    /\ truthy_opt_string (Some id) = true.
Proof.
  unfold generateTabId. unfold_eff. destruct has_globalThis; cbn.
  - eexists _, _. split; [reflexivity|].
    assert (Hne : r1 +:+ "-" +:+ t +:+ "-" +:+ r2 <> "")
      by (apply append_nonempty_r; discriminate).
    split; [exact Hne|]. unfold truthy_string.
    by destruct (String.eqb_spec (r1 +:+ "-" +:+ t +:+ "-" +:+ r2) "").
  - eexists _, _. split; [reflexivity|]. done.
Qed.

Lemma separator_inj (s1 s2 k1 k2 : string) :
  no_colon s1 = true -> no_colon s2 = true ->
  s1 +:+ "::" +:+ k1 = s2 +:+ "::" +:+ k2 ->
  s1 = s2 /\ k1 = k2.
Proof.
  revert s2. induction s1 as [|c s1 IH]; intros [|c2 s2] Hn1 Hn2 Heq; simpl in *.
  - by injection Heq.
  - injection Heq as <- _. by rewrite Ascii.eqb_refl in Hn2.
  - injection Heq as -> _. by rewrite Ascii.eqb_refl in Hn1.
  - injection Heq as <- Heq.
    apply andb_true_iff in Hn1 as [_ Hn1]. apply andb_true_iff in Hn2 as [_ Hn2].
    destruct (IH s2 Hn1 Hn2 Heq) as [-> ->]. done.
Qed.

(** X22: when the scope ids contain no colon (the text of a number has
    none), [useExclusiveState] gives different atom keys to different
    pairs of scope id and local key. *)
Theorem exclusive_key_inj (scope1 scope2 local1 local2 : string) :
  no_colon scope1 = true -> no_colon scope2 = true ->
  exclusive_key scope1 local1 = exclusive_key scope2 local2 ->
  scope1 = scope2 /\ local1 = local2.
Proof.
  intros Hn1 Hn2 Heq. unfold exclusive_key in Heq. simpl in Heq.
  injection Heq as Heq. by apply separator_inj.
Qed.

Lemma append_assoc (a b c : string) : (a +:+ b) +:+ c = a +:+ b +:+ c.
Proof.
  induction a as [|x a IH]; [done|].
  change (String x ((a +:+ b) +:+ c) = String x (a +:+ b +:+ c)). by rewrite IH.
Qed.

(** X23: a scope id or local key that contains the separator aliases
    another pair: the scope [a::b] with local key [c] and the scope [a]
    with local key [b::c] share one atom key, hence one entry. *)
Theorem exclusive_key_aliases (a b c : string) :
  exclusive_key (a +:+ "::" +:+ b) c = exclusive_key a (b +:+ "::" +:+ c).
Proof.
  unfold exclusive_key.
  by rewrite (append_assoc a ("::" +:+ b) ("::" +:+ c)).
Qed.
(** X24: the first [useAtom] of a key creates the entry under the
    context's storage (or [localStorageAdapter]) with the tab id as its
    [originId]: the entry is filed unmounted; a defined value for the key
    in the context's initial state becomes its value, at version 0 and
    without reading the storage; and, the tab id being non-empty, the
    entry resolves every version tie by [localeCompare] alone. *)
Theorem useAtom_new_entry (context : SignalContext) (config : AtomConfig)
    (regs : Registries) (w : World) :
  let storage := default localStorageAdapter (ctx_storage context) in
  key config <> "" ->
  getAtomEntryFrom storage (key config) regs = None ->
  exists e regs' w',
    useAtom_acquire context config (regs, w) = (Normal e, (regs', w'))
    /\ getAtomEntryFrom storage (key config) regs' = Some e
    /\ e_originId e = Some localTabId
    /\ e_refCount e = 0 /\ e_debouncedWrite e = None
    /\ (forall initialState,
          ctx_initialState context = Some initialState ->
          assoc (key config) initialState <> VUndefined ->
          e_signal e = assoc (key config) initialState /\ e_version e = 0 /\ w' = w)
    /\ (localTabId <> "" ->
        forall r, version r = e_version e ->
          accepts e r = true <-> 0 < localeCompare (originId r) localTabId).
Proof.
  cbv zeta. intros Hkey Hfree. unfold useAtom_acquire.
  destruct (acquireEntry_registers_aux config _ (useAtom_options context config)
              regs w Hkey Hfree) as (e & regs' & w' & Hrun & _ & Hfound & Hnew).
  destruct (new_AtomRegistryEntry_constructed config
              (default localStorageAdapter (ctx_storage context))
              (useAtom_options context config) w) as (v & n & w0 & Hc).
  rewrite Hc in Hnew. injection Hnew as <- <-.
  exists (constructed config (default localStorageAdapter (ctx_storage context))
            (useAtom_options context config) v n), regs', w0.
  split_and!; try done.
  - intros initialState Hinit Hdef. revert Hc.
    unfold new_AtomRegistryEntry, useAtom_options at 1 2. cbn [overrideValue].
    rewrite Hinit.
    destruct (strict_equal (assoc (key config) initialState) VUndefined) eqn:Heq.
    { by apply strict_equal_eq in Heq. }
    cbn [negb]. unfold ret, constructed. intros [= Hs Hver Hw]. simpl.
    rewrite Hinit in Hs. by subst.
  - intros Htab r Hv. rewrite accepts_iff. simpl in *. split.
    + intros [? | (_ & lo & [= <-] & _ & ?)]; [lia | done].
    + intros Hc'. right. split; [done|]. by exists localTabId.
Qed.


End BindingsProperties.

(** * The further properties on the concrete platform *)

Module Sample2.
Import Sample.

Definition trailing_only : DebounceOptions :=
  {| opt_leading := None; opt_trailing := None; opt_maxWait := None |}.

Definition throttled : ThrottleOptions := {| t_leading := None; t_trailing := None |}.

(** [throttle(tick, 100)] after its first call, at time 0. *)
Definition throttled_once : DebounceState unit unit unit * World :=
  snd (debounced tick 100 (throttle_options 100 throttled) None tt (debounce, world0)).

Definition restoring : AtomRegistryEntryOptions :=
  {| overrideValue := VUndefined; init_originId := Some "tab-local";
     persistent := Some true |}.

(** A host whose [localStorage] holds a record of tab [tabA] for the
    counter. *)
Definition stored_world : World :=
  set_store {[ "counter" := text (record (VNum 7) 3 "tabA") ]} world0.

Definition no_context : SignalContext :=
  {| ctx_storage := None; ctx_persistent := None; ctx_initialState := None |}.

End Sample2.

Section CoverageExamples.
Import Sample Sample2.

(** X1, an instance: two calls, at times 10 and 20. *)
Lemma burst_coalesces_witness :
  exists (d' : DebounceState unit unit unit) (w' : World),
    (forall func : option unit -> option unit -> Eff World unit,
        burst func 100 trailing_only
          ([(set_clock 10, None, tt)] ++ [(set_clock 20, Some tt, tt)]) (debounce, world0)
        = (d', w'))
    /\ lastArgs d' = Some tt
    /\ lastThis d' = Some tt.
Proof.
  destruct (burst_coalesces 100 trailing_only [(set_clock 10, None, tt)]
              (set_clock 20) (Some tt) tt (debounce : DebounceState unit unit unit)
              world0 eq_refl eq_refl eq_refl)
    as (d' & w' & Hrun & Hargs & Hthis & _).
  exists d', w'. split; [exact Hrun|]. split; assumption.
Defined.

(** X2, an instance: the callback of [called_at_1000] runs at 1060. *)
Lemma timerExpired_rearms_witness :
  shouldInvoke 100 hurried (fst called_at_1000) 1060 = false
  /\ 0 < remainingWait 100 hurried (fst called_at_1000) 1060 <= 100.
Proof.
  assert (Hnot : shouldInvoke 100 hurried (fst called_at_1000)
                   (Date_now (set_clock 1060 (snd called_at_1000))) = false)
    by (vm_compute; reflexivity).
  split; [exact Hnot|].
  exact (proj1 (timerExpired_rearms 100 hurried (fst called_at_1000)
                  (set_clock 1060 (snd called_at_1000)) Hnot)).
Defined.

(** X5, an instance: [throttle(tick, 100)] is called for the first time. *)
Lemma throttle_first_call_invokes_witness :
  t_leading throttled = None
  /\ console (snd throttled_once) = [(LogInfo, "tick")].
Proof.
  split; [reflexivity|]. unfold throttled_once.
  rewrite (throttle_first_call_invokes tick 100 throttled world0 None tt eq_refl).
  reflexivity.
Defined.

(** X6, an instance: a second call 30 ms after the first only records. *)
Lemma throttle_window_witness :
  fst (debounced tick 100 (throttle_options 100 throttled) None tt
         (fst throttled_once, set_clock 30 (snd throttled_once)))
    = Normal (result (fst throttled_once)).
Proof.
  assert (Hrecent : 0 <= Date_now (set_clock 30 (snd throttled_once)) - 0 < 100)
    by (vm_compute; split; [discriminate | reflexivity]).
  assert (Hinv : Date_now (set_clock 30 (snd throttled_once))
                   - lastInvokeTime (fst throttled_once) < 100)
    by (vm_compute; reflexivity).
  rewrite (proj1 (throttle_window 100 throttled (fst throttled_once)
                    (set_clock 30 (snd throttled_once)) None tt 0%nat 0
                    eq_refl eq_refl Hrecent) Hinv tick).
  reflexivity.
Defined.

(** X8, an instance: the counter is mounted for the first time. *)
Lemma mount_schedules_write_witness :
  let e := entry_of counter (VNum 0) 0 (Some "tab-local") in
  mount (e, world0)
    = (Normal tt, (first_mounted e world0, snd (world_setTimeout write_wait world0)))
  /\ pending_write (first_mounted e world0) = true.
Proof.
  cbv zeta.
  destruct (mount_schedules_write (entry_of counter (VNum 0) 0 (Some "tab-local"))
              world0 eq_refl) as (Hrun & Hpending & _).
  split; assumption.
Defined.

(** X9, an instance: two changes of the mounted counter, 20 ms apart. *)
Lemma value_changes_defer_write_witness :
  let s := run_trace [SetValue (VNum 1); ClockShows 520; SetValue (VNum 2)]
             (fst mounted_idle, snd mounted_idle) in
  e_version (fst s) = e_version (fst mounted_idle)
  /\ store (snd s) = store (snd mounted_idle)
  /\ console (snd s) = console (snd mounted_idle).
Proof.
  exact (value_changes_defer_write
           [SetValue (VNum 1); ClockShows 520; SetValue (VNum 2)]
           (fst mounted_idle) (snd mounted_idle) eq_refl).
Defined.

(** X10, an instance: the mounted counter is disposed, then mounted
    again. *)
Lemma dispose_then_mount_stays_off_witness :
  let s := snd (mount (snd (dispose (fst mounted_idle, snd mounted_idle)))) in
  e_refCount (fst s) = e_refCount (fst mounted_idle) + 1
  /\ e_debouncedWrite (fst s) = None
  /\ e_disposeEffect (fst s) = false.
Proof.
  cbv zeta.
  assert (Hused : 1 <= e_refCount (fst mounted_idle)) by (vm_compute; discriminate).
  destruct (dispose_then_mount_stays_off (fst mounted_idle) (snd mounted_idle) Hused)
    as (Hrc & Hw & Hd & _).
  split_and!; assumption.
Defined.

(** X12, an instance: the counter is constructed over the stored record. *)
Lemma constructor_restores_witness :
  exists w',
    new_AtomRegistryEntry counter localStorageAdapter restoring stored_world
      = (Normal (constructed counter localStorageAdapter restoring (VNum 7) 3), w').
Proof.
  eexists.
  refine (constructor_restores counter localStorageAdapter restoring stored_world _
            (text (record (VNum 7) 3 "tabA")) (record (VNum 7) 3 "tabA") 3
            eq_refl eq_refl _ _ _ _ _).
  - reflexivity.
  - vm_compute. reflexivity.
  - discriminate.
  - discriminate.
  - left. reflexivity.
Defined.

(** X13, an instance: tab [tabA] writes 7 at version 2, a new entry is
    then constructed on the key. *)
Lemma write_then_construct_witness :
  let e := entry_of counter (VNum 7) 2 (Some "tabA") in
  exists w1 w2,
    writeToStorage (e, world0) = (Normal tt, (bump 1 e, w1))
    /\ new_AtomRegistryEntry counter localStorageAdapter restoring w1
       = (Normal (constructed counter localStorageAdapter restoring (VNum 7) 3), w2).
Proof.
  cbv zeta. eexists _, _.
  refine (write_then_construct (entry_of counter (VNum 7) 2 (Some "tabA")) restoring
            world0 _ _ (text (record (VNum 7) 3 "tabA")) (record (VNum 7) 3 "tabA")
            _ _ _ _ _ _ eq_refl eq_refl eq_refl eq_refl).
  - vm_compute. reflexivity.
  - reflexivity.
  - reflexivity.
  - vm_compute. reflexivity.
  - discriminate.
  - discriminate.
Defined.

(** X14, an instance: nothing is stored for the counter. *)
Lemma constructor_falls_back_witness :
  exists w'',
    new_AtomRegistryEntry counter localStorageAdapter restoring world0
      = (Normal (constructed counter localStorageAdapter restoring (VNum 0) 0), w'').
Proof.
  destruct (constructor_falls_back counter localStorageAdapter restoring world0
              eq_refl eq_refl) as (w'' & Hrun & _).
  - right; right. eexists. reflexivity.
  - exists w''. exact Hrun.
Defined.

(** X15, an instance: the counter is acquired in an empty registry. *)
Lemma acquireEntry_registers_witness :
  exists e regs' w',
    acquireEntry counter localStorageAdapter restoring (∅, world0)
      = (Normal e, (regs', w'))
    /\ getAtomEntryFrom localStorageAdapter "counter" regs' = Some e.
Proof.
  destruct (acquireEntry_registers counter localStorageAdapter restoring ∅ world0)
    as (e & regs' & w' & Hrun & _ & Hfound & _).
  - discriminate.
  - reflexivity.
  - exists e, regs', w'. split; assumption.
Defined.

(** X16, an instance: the counter is acquired twice, the second time with
    another default value. *)
Lemma acquireEntry_get_or_create_witness :
  exists e regs1 w1 w2,
    acquireEntry counter localStorageAdapter restoring (∅, world0)
      = (Normal e, (regs1, w1))
    /\ acquireEntry {| key := "counter"; defaultValue := VNum 5 |} localStorageAdapter
         {| overrideValue := VNum 9; init_originId := None; persistent := None |}
         (regs1, w1)
       = (Normal e, (regs1, w2)).
Proof.
  refine (acquireEntry_get_or_create counter {| key := "counter"; defaultValue := VNum 5 |}
            localStorageAdapter restoring
            {| overrideValue := VNum 9; init_originId := None; persistent := None |}
            ∅ world0 _ eq_refl eq_refl _).
  - discriminate.
  - right. split; vm_compute; discriminate.
Defined.

(** X17, an instance: tab [zzz] has written 7 at version 5; the counter is
    at version 3. *)
Lemma handleStorageChange_applies_witness :
  let entry := entry_of counter (VNum 0) 3 (Some "tab-local") in
  exists e' regs' w',
    handleStorageChange
      {| ev_key := Some "counter";
         ev_newValue := Some (text (record (VNum 7) 5 "zzz")) |}
      (registered entry, world0)
      = (Normal tt, (regs', w'))
    /\ getAtomEntryFrom localStorageAdapter "counter" regs' = Some e'
    /\ e_signal e' = VNum 7 /\ e_version e' = 5.
Proof.
  cbv zeta.
  assert (Hkey : "counter" <> "") by discriminate.
  assert (Hparse : JSON_parse (text (record (VNum 7) 5 "zzz"))
                   = Some (VObj [("value", VNum 7); ("version", VNum 5);
                                 ("originId", VStr "zzz")]))
    by (vm_compute; reflexivity).
  assert (Hdef : VNum 7 <> VUndefined) by discriminate.
  assert (Hother : "zzz" <> localTabId) by (vm_compute; discriminate).
  destruct (handleStorageChange_applies "counter" (text (record (VNum 7) 5 "zzz")) "zzz"
              (VNum 7) 5
              [("value", VNum 7); ("version", VNum 5); ("originId", VStr "zzz")]
              (entry_of counter (VNum 0) 3 (Some "tab-local"))
              (registered (entry_of counter (VNum 0) 3 (Some "tab-local"))) world0
              Hkey eq_refl Hparse eq_refl Hdef eq_refl eq_refl Hother)
    as (e' & regs' & w' & Hrun & _ & Hfound & Hnewer).
  exists e', regs', w'.
  destruct Hnewer as [Hs Hv]; [reflexivity|]. split_and!; assumption.
Defined.

(** X18, an instance: the new value is not JSON. *)
Lemma handleStorageChange_throws_only_on_null_witness :
  fst (handleStorageChange {| ev_key := Some "counter"; ev_newValue := Some "oops" |}
         (registered (entry_of counter (VNum 0) 3 (Some "tab-local")), world0))
    = Normal tt.
Proof.
  apply handleStorageChange_throws_only_on_null.
  intros text Hnew. simpl in Hnew. injection Hnew as <-.
  split; vm_compute; discriminate.
Defined.

(** X19, an instance: an event for [counter] and the key [other]. *)
Lemma handleStorageChange_other_entries_witness :
  let regs := registered (entry_of counter (VNum 0) 3 (Some "tab-local")) in
  getAtomEntryFrom localStorageAdapter "other"
    (fst (snd (handleStorageChange
                 {| ev_key := Some "counter";
                    ev_newValue := Some (text (record (VNum 7) 5 "zzz")) |}
                 (regs, world0))))
    = getAtomEntryFrom localStorageAdapter "other" regs.
Proof.
  cbv zeta. apply handleStorageChange_other_entries. right. discriminate.
Defined.

(** X22, an instance: two scopes given by numbers. *)
Lemma exclusive_key_inj_witness :
  no_colon "42" = true
  /\ exclusive_key "42" "open" = "exclusive::42::open"
  /\ "42" = "42" /\ "open" = "open".
Proof.
  split; [reflexivity|]. split; [reflexivity|].
  exact (exclusive_key_inj "42" "42" "open" "open" eq_refl eq_refl eq_refl).
Defined.

(** X24, an instance: [useAtom(counter)] without a provider, in an empty
    registry. *)
Lemma useAtom_new_entry_witness :
  exists e regs' w',
    useAtom_acquire no_context counter (∅, world0) = (Normal e, (regs', w'))
    /\ getAtomEntryFrom localStorageAdapter "counter" regs' = Some e
    /\ e_originId e = Some "tab-local".
Proof.
  destruct (useAtom_new_entry no_context counter ∅ world0)
    as (e & regs' & w' & Hrun & Hfound & Horigin & _).
  - discriminate.
  - reflexivity.
  - exists e, regs', w'. split_and!; assumption.
Defined.

End CoverageExamples.
